(** * H2 ground-state energy sweep (community/chemistry/h2_iqpe.ipynb)

    A shallow embedding of the notebook's code cells: the configuration
    dictionary and the algorithm table, the unit of work [subrountine],
    the parallel sweep with its aggregation loops, and the cells that plot
    the energies and the energy differences.

    Modelling decisions, each stated where it is used:
    - Python dictionaries are mutable objects living in a heap; a variable
      holds a reference.  A dictionary keeps its keys in insertion order,
      so an object is an association list.
    - Python floats are modelled by exact rationals ([Q]); how a float is
      rendered inside [str.format] is a parameter ([float_str]).
    - The external solver ([QiskitChemistry().run]) is a parameter
      ([solver_run]) that either raises or returns a dictionary of floats.
    - The order in which [concurrent.futures.as_completed] yields the
      futures is a parameter ([order]), one list of positions per pass. *)

From Stdlib Require Import Ascii String QArith Lqa.
From stdpp Require Import list strings.

Local Open Scope string_scope.
Local Open Scope list_scope.

(** ** Python values, dictionaries and the heap *)

Abbreviation loc := nat (only parsing).

Inductive pyval :=
  | VStr (s : string)
  | VInt (n : Z)
  | VRef (l : loc).

(** A dictionary object: keys in insertion order. *)
Abbreviation pydict := (list (string * pyval)).

Fixpoint dict_get {A} (o : list (string * A)) (k : string) : option A :=
  match o with
  | [] => None
  | (k', v) :: o' => if String.eqb k' k then Some v else dict_get o' k
  end.

(** [o[k] = v]: an existing key keeps its position, a new key goes last. *)
Fixpoint dict_set {A} (o : list (string * A)) (k : string) (v : A)
  : list (string * A) :=
  match o with
  | [] => [(k, v)]
  | (k', v') :: o' =>
      if String.eqb k' k then (k', v) :: o' else (k', v') :: dict_set o' k v
  end.

Abbreviation heap := (list pydict).

(** The value a reference denotes, read off the heap: what a reader that
    only follows references (the solver, [print]) can observe. *)
#[warnings="-register-all"] Inductive tree :=
  | TStr (s : string)
  | TInt (n : Z)
  | TDict (items : list (string * tree))
  | TCut.

Fixpoint snap (fuel : nat) (h : heap) (v : pyval) : tree :=
  match v with
  | VStr s => TStr s
  | VInt n => TInt n
  | VRef l =>
      match fuel with
      | O => TCut
      | S fuel' =>
          match h !! l with
          | Some o => TDict (map (fun kv => (kv.1, snap fuel' h kv.2)) o)
          | None => TCut
          end
      end
  end.

(** An acyclic chain of references is no longer than the heap. *)
Definition view (h : heap) (v : pyval) : tree := snap (length h) h v.

Fixpoint tree_path (t : tree) (path : list string) : option tree :=
  match path with
  | [] => Some t
  | k :: path' =>
      match t with
      | TDict items =>
          match dict_get items k with
          | Some t' => tree_path t' path'
          | None => None
          end
      | _ => None
      end
  end.

(** ** Exceptions and the state-and-exception monad *)

Inductive exn :=
  | KeyError (k : string)
  | TypeError
  | IndexError
  | RecursionError
  | SolverError (msg : string).

(** A computation runs on a state, ends with a value or a raised
    exception, and leaves a state in both cases. *)
Definition M (S A : Type) : Type := S -> (exn + A) * S.

#[global] Instance M_ret {S} : MRet (M S) := fun A a s => (inr a, s).
#[global] Instance M_throw {S} : MThrow exn (M S) := fun A e s => (inl e, s).
#[global] Instance M_bind {S} : MBind (M S) := fun A B f m s =>
  match m s with
  | (inl e, s') => (inl e, s')
  | (inr a, s') => f a s'
  end.
Definition gets {S A} (f : S -> A) : M S A := fun s => (inr (f s), s).
Definition modify {S} (f : S -> S) : M S unit := fun s => (inr tt, f s).

(** [for x in xs: body(x)]; an exception leaves the loop. *)
Fixpoint for_each {S A} (xs : list A) (body : A -> M S unit) : M S unit :=
  match xs with
  | [] => mret tt
  | x :: xs' => body x;; for_each xs' body
  end.

(** ** The interpreter state *)

Inductive backend := QasmSimulator | NoBackend.

(** A future remembers the arguments of the submitted call and holds the
    outcome of that call: the returned tuple or the raised exception. *)
Record future := Future {
  f_index : nat;
  f_config : pyval;
  f_distance : Q;
  f_backend : backend;
  f_algorithm : pyval;
  f_outcome : exn + (nat * Q * Q * Q)
}.

(** Objects, the record of solver invocations and the [futures] list. *)
Record pyworld := World {
  w_heap : heap;
  w_calls : list (tree * backend);
  w_futures : list future
}.

Definition set_heap (h : heap) (w : pyworld) : pyworld :=
  World h (w_calls w) (w_futures w).

(** [{k1: v1, ...}]: a new object. *)
Definition new_dict (o : pydict) : M pyworld pyval :=
  fun w => (inr (VRef (length (w_heap w))), set_heap (w_heap w ++ [o]) w).

(** [v[k]] *)
Definition getitem (v : pyval) (k : string) : M pyworld pyval :=
  fun w =>
    match v with
    | VRef l =>
        match w_heap w !! l with
        | Some o =>
            match dict_get o k with
            | Some x => (inr x, w)
            | None => (inl (KeyError k), w)
            end
        | None => (inl TypeError, w)
        end
    | _ => (inl TypeError, w)
    end.

(** [v[k] = x] *)
Definition setitem (v : pyval) (k : string) (x : pyval) : M pyworld unit :=
  fun w =>
    match v with
    | VRef l =>
        match w_heap w !! l with
        | Some o => (inr tt, set_heap (<[l := dict_set o k x]> (w_heap w)) w)
        | None => (inl TypeError, w)
        end
    | _ => (inl TypeError, w)
    end.

(** [x.items()] *)
Definition dict_items (v : pyval) : M pyworld pydict :=
  fun w =>
    match v with
    | VRef l =>
        match w_heap w !! l with
        | Some o => (inr o, w)
        | None => (inl TypeError, w)
        end
    | _ => (inl TypeError, w)
    end.

(** [copy.deepcopy]: strings and integers are returned as they are; a
    dictionary is copied into a new object, entry by entry, each value
    copied in turn.  The recursion is bounded by the interpreter's
    recursion limit.  The memo table of [copy.deepcopy] only matters for
    objects reachable along two paths and is left out: every dictionary of
    this notebook is reachable along one path. *)
Definition recursion_limit : nat := 1000.

Fixpoint deepcopy_rec (fuel : nat) (x : pyval) : M pyworld pyval :=
  match x with
  | VRef _ =>
      match fuel with
      | O => mthrow RecursionError
      | S fuel' =>
          items ← dict_items x;
          y ← new_dict [];
          for_each items (fun kv =>
            v' ← deepcopy_rec fuel' kv.2; setitem y kv.1 v');;
          mret y
      end
  | _ => mret x
  end.

Definition deepcopy : pyval -> M pyworld pyval := deepcopy_rec recursion_limit.

(** [template.format(arg)] for a template whose only replacement field is
    [{0}]: every occurrence of the field is replaced by the argument. *)
Fixpoint format (template arg : string) : string :=
  match template with
  | EmptyString => EmptyString
  | String c rest =>
      match rest with
      | String c1 (String c2 rest') =>
          if (Ascii.eqb c "{" && Ascii.eqb c1 "0" && Ascii.eqb c2 "}")%char
          then arg +:+ format rest' arg
          else String c (format rest arg)
      | _ => String c (format rest arg)
      end
  end.

(** ** Cell 1: configuration, algorithm table, sweep parameters *)

Record globals := Globals {
  qiskit_chemistry_dict : pyval;
  algorithms : list pyval;
  backends : list backend
}.

Definition molecule : string := "H .0 .0 -{0}; H .0 .0 {0}".

Definition start : Q := 0.5.
Definition by_ : Q := 0.5.
Definition steps : nat := 20.

Definition cell1_dicts : M pyworld globals :=
  driver ← new_dict [("name", VStr "PYSCF")];
  pyscf ← new_dict [("atom", VStr ""); ("basis", VStr "sto3g")];
  operator ← new_dict [("name", VStr "hamiltonian");
                       ("transformation", VStr "full");
                       ("qubit_mapping", VStr "parity")];
  algorithm ← new_dict [("name", VStr "")];
  initial_state ← new_dict [("name", VStr "HartreeFock")];
  config ← new_dict [("driver", driver); ("PYSCF", pyscf);
                     ("operator", operator); ("algorithm", algorithm);
                     ("initial_state", initial_state)];
  iqpe ← new_dict [("name", VStr "IQPE");
                   ("num_iterations", VInt 16);
                   ("num_time_slices", VInt 3000);
                   ("expansion_mode", VStr "trotter");
                   ("expansion_order", VInt 1)];
  exact ← new_dict [("name", VStr "ExactEigensolver")];
  mret (Globals config [iqpe; exact] [QasmSimulator; NoBackend]).

(** [d = start + i*by/steps] *)
Definition distance (i : nat) : Q :=
  (start + inject_Z (Z.of_nat i) * by_ / inject_Z (Z.of_nat steps))%Q.

(** ** Reading the heap *)

(** The objects reachable from a value. *)
Fixpoint reach (fuel : nat) (h : heap) (v : pyval) : list loc :=
  match v with
  | VRef l =>
      l :: match fuel with
           | O => []
           | S fuel' =>
               match h !! l with
               | Some o => flat_map (fun kv => reach fuel' h kv.2) o
               | None => []
               end
           end
  | _ => []
  end.


(** The value stored under key [k] of the object at [l]. *)
Definition entry (h : heap) (l : loc) (k : string) : option pyval :=
  o ← h !! l; dict_get o k.

(** Neither [l] nor [lp] is reachable from the value, if there is one. *)
Definition apart (h : heap) (v : option pyval) (l lp : loc) : Prop :=
  match v with
  | Some v => (l ∉ reach (length h) h v) /\ (lp ∉ reach (length h) h v)
  | None => True
  end.

#[global] Instance apart_dec h v l lp : Decision (apart h v l lp).
Proof. unfold apart. destruct v; apply _. Defined.

(** No object of the configuration a future was given is an object of
    the shared dictionary. *)
Definition own_copy (h : heap) (shared : pyval) (f : future) : Prop :=
  Forall (fun l => l ∉ reach (length h) h shared)
         (reach (length h) h (f_config f)).

#[global] Instance own_copy_dec h shared f : Decision (own_copy h shared f).
Proof. unfold own_copy. apply _. Defined.

#[global] Instance pyval_eq_dec : EqDecision pyval.
Proof. solve_decision. Defined.

(** The two dictionaries the unit of [f] assigns to, its configuration
    and the ['PYSCF'] dictionary of that configuration, are objects of
    none of the values [vs]. *)
Definition writes_apart (h : heap) (f : future) (vs : list pyval) : Prop :=
  match f_config f with
  | VRef l =>
      match entry h l "PYSCF" with
      | Some (VRef lp) =>
          Forall (fun v => (l ∉ reach (length h) h v)
                           /\ (lp ∉ reach (length h) h v)) vs
      | _ => False
      end
  | _ => False
  end.

#[global] Instance writes_apart_dec h f vs : Decision (writes_apart h f vs).
Proof.
  unfold writes_apart. destruct (f_config f) as [s|z|l]; [apply _..|].
  destruct (entry h l "PYSCF") as [[s|z|lp]|]; apply _.
Defined.

(** The futures of a world, each with its position in [futures]. *)
Definition positioned (w : pyworld) : list (nat * future) :=
  zip (seq 0 (length (w_futures w))) (w_futures w).

(** The dictionaries a unit assigns to are objects neither of the
    configuration of another unit nor of one of the values [vs]. *)
Definition units_apart (vs : list pyval) (w : pyworld) : Prop :=
  Forall (fun kf =>
    Forall (fun kf' =>
      kf.1 <> kf'.1 ->
      writes_apart (w_heap w) kf.2 (f_config kf'.2 :: vs))
      (positioned w))
    (positioned w).

#[global] Instance units_apart_dec vs w : Decision (units_apart vs w).
Proof. unfold units_apart. apply _. Defined.

(** Every object of [h] is in [h'], at its place and as it was. *)
Definition preserved (h h' : heap) : Prop := take (length h) h' = h.

(** A value that is no reference to one of the first [n] objects. *)
Definition fresh_val (n : nat) (v : pyval) : Prop :=
  match v with
  | VRef l => n <= l
  | _ => True
  end.

(** A value that, if a reference, refers to an object beyond the first
    [n] whose entries do so too. *)
Definition fresh_copy (n : nat) (h : heap) (v : pyval) : Prop :=
  match v with
  | VRef y => n <= y /\ forall k x, entry h y k = Some x -> fresh_val n x
  | _ => True
  end.

(** The state of the entry-by-entry loop of a deep copy: the objects of
    [w] are preserved, the new dictionary [y] exists, is beyond them, and
    holds fresh values only. *)
Definition copying (w : pyworld) (y : loc) (wa : pyworld) : Prop :=
  preserved (w_heap w) (w_heap wa)
  /\ length (w_heap w) <= y < length (w_heap wa)
  /\ (forall k x, entry (w_heap wa) y k = Some x ->
        fresh_val (length (w_heap w)) x)
  /\ w_calls wa = w_calls w
  /\ w_futures wa = w_futures w.

(** A value that, if a reference, refers to one of the first [n]
    objects. *)
Definition bounded_val (n : nat) (v : pyval) : Prop :=
  match v with
  | VRef l => l < n
  | _ => True
  end.

#[global] Instance bounded_val_dec n v : Decision (bounded_val n v).
Proof. unfold bounded_val. destruct v; apply _. Defined.

(** No object refers to an object that is not there, and no dictionary
    has a key twice: both hold of every heap of a Python interpreter. *)
Definition closed (h : heap) : Prop :=
  Forall (fun o => Forall (fun kv => bounded_val (length h) kv.2) o) h.

Definition unique_keys (h : heap) : Prop :=
  Forall (fun o => NoDup o.*1) h.

(** The value is a nest of dictionaries at most [fuel] deep in which
    every reference leads to an object of [h]: there is no cycle. *)
Fixpoint nested (fuel : nat) (h : heap) (v : pyval) : bool :=
  match v with
  | VRef l =>
      match fuel with
      | O => false
      | S fuel' =>
          match h !! l with
          | Some o => forallb (fun kv => nested fuel' h kv.2) o
          | None => false
          end
      end
  | _ => true
  end.

(** The entry [kv'] of a dictionary under construction at [y] in [h] is
    a finished copy of the entry [kv] of [h0]: same key, a value that
    reads the same, made of objects allocated after [y]. *)
Definition copy_of (h0 : heap) (y : loc) (h : heap)
    (kv kv' : string * pyval) : Prop :=
  kv.1 = kv'.1
  /\ (forall n, snap n h kv'.2 = snap n h0 kv.2)
  /\ (forall n x, x ∈ reach n h kv'.2 -> y < x < length h).

(** ** A small solver and schedules to run the notebook on *)

Definition demo_float_str (q : Q) : string :=
  if Qeq_bool q 0.25 then "0.25" else "0.5".

(** Energies that tell the two algorithms apart. *)
Definition demo_solver (n : nat) (t : tree) (bk : backend)
  : exn + list (string * Q) :=
  match bk with
  | QasmSimulator => inr [("energy", (-1)%Q); ("hf_energy", (-0.5)%Q)]
  | NoBackend => inr [("energy", (-1.1)%Q); ("hf_energy", (-0.5)%Q)]
  end.

(** A solver that fails on the classical algorithm. *)
Definition failing_solver (n : nat) (t : tree) (bk : backend)
  : exn + list (string * Q) :=
  match bk with
  | QasmSimulator => inr [("energy", (-1)%Q); ("hf_energy", (-0.5)%Q)]
  | NoBackend => inl (SolverError "no convergence")
  end.

(** A solver whose fourth invocation fails, on the simulator. *)
Definition unstable_solver (n : nat) (t : tree) (bk : backend)
  : exn + list (string * Q) :=
  if Nat.eqb n 3 then inl (SolverError "simulator failed")
  else demo_solver n t bk.

(** Every future in the order of submission. *)
Definition in_order (j : nat) : list nat := seq 0 (21 * (j + 1)).

(** Second pass: the exact result of step 0 is yielded before the IQPE
    result of step 0. *)
Definition exact_first (j : nat) : list nat :=
  match j with
  | O => seq 0 21
  | _ => 21 :: seq 0 21 ++ seq 22 20
  end.

Section Script.

(** How [str.format] renders a float. *)
Variable float_str : Q -> string.

(** [QiskitChemistry().run(config, backend=backend)]: it reads the
    configuration it is handed and raises or returns a result dictionary.
    The first argument numbers the invocations, so that two invocations
    on equal arguments may answer differently (the quantum algorithm runs
    on a sampling simulator). *)
Variable solver_run : nat -> tree -> backend -> exn + list (string * Q).

Definition solver_call (config : pyval) (bk : backend)
  : M pyworld (list (string * Q)) :=
  fun w =>
    let t := view (w_heap w) config in
    (solver_run (length (w_calls w)) t bk,
     World (w_heap w) (w_calls w ++ [(t, bk)]) (w_futures w)).

(** [result[k]] *)
Definition result_get (result : list (string * Q)) (k : string)
  : M pyworld Q :=
  match dict_get result k with
  | Some x => mret x
  | None => mthrow (KeyError k)
  end.

(** ** Cell 2: the unit of work *)

Definition subrountine (i : nat) (qiskit_chemistry_dict : pyval) (d : Q)
    (bk : backend) (algorithm : pyval) : M pyworld (nat * Q * Q * Q) :=
  pyscf ← getitem qiskit_chemistry_dict "PYSCF";
  setitem pyscf "atom" (VStr (format molecule (float_str (d / 2))));;
  setitem qiskit_chemistry_dict "algorithm" algorithm;;
  result ← solver_call qiskit_chemistry_dict bk;
  energy ← result_get result "energy";
  hf_energy ← result_get result "hf_energy";
  mret (i, d, energy, hf_energy).

(** ** Cell 3: the sweep *)

(** [executor.submit(subrountine, i, config, d, backend, algorithm)].
    The call runs in a worker and its outcome, value or exception, is
    kept by the future.  The outcome depends on the submitted arguments
    only, so the model runs the call at submission; it runs it on the
    driver's own heap, the least favourable case for the driver's
    objects (a worker process works on a pickled copy). *)
Definition submit (i : nat) (config : pyval) (d : Q) (bk : backend)
    (algorithm : pyval) : M pyworld future :=
  fun w =>
    let rw := subrountine i config d bk algorithm w in
    (inr (Future i config d bk algorithm rw.1), rw.2).

Definition append_future (f : future) : M pyworld unit :=
  modify (fun w => World (w_heap w) (w_calls w) (w_futures w ++ [f])).

(** The inner submission loop, [for i in range(steps+1)]. *)
Definition submit_all (g : globals) (algorithm : pyval) (bk : backend)
  : M pyworld unit :=
  for_each (seq 0 (steps + 1)) (fun i =>
    let d := distance i in
    config ← deepcopy (qiskit_chemistry_dict g);
    f ← submit i config d bk algorithm;
    append_future f).

(** *** Result arrays *)

(** [np.empty] hands out storage whose contents are arbitrary: a cell is
    [None] until the script assigns it. *)
Definition np_empty (n : nat) : list (option Q) := replicate n None.
Definition np_empty2 (rows cols : nat) : list (list (option Q)) :=
  replicate rows (np_empty cols).

Record state := State {
  st_world : pyworld;
  energies : list (list (option Q));
  hf_energies : list (option Q);
  distances : list (option Q);
  (** ghost: one entry (pass, position in [futures]) for every
      [future.result()] that returned a tuple *)
  st_consumed : list (nat * nat)
}.

Definition lift_world {A} (m : M pyworld A) : M state A :=
  fun st =>
    let rw := m (st_world st) in
    (rw.1, State rw.2 (energies st) (hf_energies st) (distances st)
                 (st_consumed st)).

(** The arrays of cell 1. *)
Definition cell1 : M state globals :=
  g ← lift_world cell1_dicts;
  modify (fun st =>
    State (st_world st)
          (np_empty2 (length (algorithms g)) (steps + 1))
          (np_empty (steps + 1)) (np_empty (steps + 1))
          (st_consumed st));;
  mret g.

(** [xs[j]] on a Python list *)
Definition list_getitem {S A} (xs : list A) (j : nat) : M S A :=
  match xs !! j with
  | Some x => mret x
  | None => mthrow IndexError
  end.

(** [a[i] = x] on a one-dimensional array *)
Definition array_set (a : list (option Q)) (i : nat) (x : Q)
  : exn + list (option Q) :=
  if decide (i < length a) then inr (<[i := Some x]> a) else inl IndexError.

(** [a[j][i] = x] on a two-dimensional array *)
Definition array2_set (a : list (list (option Q))) (j i : nat) (x : Q)
  : exn + list (list (option Q)) :=
  match a !! j with
  | Some row =>
      match array_set row i x with
      | inr row' => inr (<[j := row']> a)
      | inl e => inl e
      end
  | None => inl IndexError
  end.

Definition set_energies (j i : nat) (x : Q) : M state unit :=
  fun st =>
    match array2_set (energies st) j i x with
    | inr a => (inr tt, State (st_world st) a (hf_energies st) (distances st)
                              (st_consumed st))
    | inl e => (inl e, st)
    end.

Definition set_hf_energies (i : nat) (x : Q) : M state unit :=
  fun st =>
    match array_set (hf_energies st) i x with
    | inr a => (inr tt, State (st_world st) (energies st) a (distances st)
                              (st_consumed st))
    | inl e => (inl e, st)
    end.

Definition set_distances (i : nat) (x : Q) : M state unit :=
  fun st =>
    match array_set (distances st) i x with
    | inr a => (inr tt, State (st_world st) (energies st) (hf_energies st) a
                              (st_consumed st))
    | inl e => (inl e, st)
    end.

(** [future.result()]: the tuple the call returned, or its exception
    raised again in the driver. *)
Definition future_result (j k : nat) (f : future)
  : M state (nat * Q * Q * Q) :=
  match f_outcome f with
  | inr r =>
      modify (fun st =>
        State (st_world st) (energies st) (hf_energies st) (distances st)
              (st_consumed st ++ [(j, k)]));;
      mret r
  | inl e => mthrow e
  end.

(** [concurrent.futures.as_completed(futures)] yields every future of the
    list once; [order] lists their positions in the order of yielding. *)
Definition as_completed (fs : list future) (order : list nat)
  : list (nat * future) :=
  omap (fun k => (fun f => (k, f)) <$> fs !! k) order.

(** The body of the aggregation loop. *)
Definition collect (j : nat) (kf : nat * future) : M state unit :=
  r ← future_result j kf.1 kf.2;
  let '(i, d, energy, hf_energy) := r in
  set_energies j i energy;;
  set_hf_energies i hf_energy;;
  set_distances i d.

(** The body of [for j in range(len(algorithms))]. *)
Definition pass (g : globals) (order : nat -> list nat) (j : nat)
  : M state unit :=
  algorithm ← list_getitem (algorithms g) j;
  bk ← list_getitem (backends g) j;
  lift_world (submit_all g algorithm bk);;
  fs ← gets (fun st => w_futures (st_world st));
  for_each (as_completed fs (order j)) (collect j).

(** [futures = []] *)
Definition reset_futures : M pyworld unit :=
  modify (fun w => World (w_heap w) (w_calls w) []).

(** [futures = []] and the loop over the algorithms. *)
Definition sweep (g : globals) (order : nat -> list nat) : M state unit :=
  lift_world reset_futures;;
  for_each (seq 0 (length (algorithms g))) (pass g order).

(** Cells 1 and 3, run from a fresh interpreter. *)
Definition notebook (order : nat -> list nat) : M state unit :=
  g ← cell1;
  sweep g order.

(** *** What the call of a unit of work amounts to *)

(** The two assignments of [subrountine]. *)
Definition prepare (config : pyval) (d : Q) (algorithm : pyval)
  : M pyworld unit :=
  pyscf ← getitem config "PYSCF";
  setitem pyscf "atom" (VStr (format molecule (float_str (d / 2))));;
  setitem config "algorithm" algorithm.

(** The ghost record of one solver invocation. *)
Definition record_call (config : pyval) (bk : backend) : M pyworld unit :=
  modify (fun w =>
    World (w_heap w) (w_calls w ++ [(view (w_heap w) config, bk)])
          (w_futures w)).

(** The returned tuple as a function of what the solver answers. *)
Definition unit_result (i : nat) (d : Q) (r : exn + list (string * Q))
  : exn + (nat * Q * Q * Q) :=
  match r with
  | inl e => inl e
  | inr result =>
      match dict_get result "energy" with
      | None => inl (KeyError "energy")
      | Some energy =>
          match dict_get result "hf_energy" with
          | None => inl (KeyError "hf_energy")
          | Some hf_energy => inr (i, d, energy, hf_energy)
          end
      end
  end.

(** What [subrountine] returns or raises. *)
Definition unit_outcome (i : nat) (config : pyval) (d : Q) (bk : backend)
    (algorithm : pyval) (w : pyworld) : exn + (nat * Q * Q * Q) :=
  match prepare config d algorithm w with
  | (inl e, _) => inl e
  | (inr _, w') =>
      unit_result i d
        (solver_run (length (w_calls w')) (view (w_heap w') config) bk)
  end.

(** The world [subrountine] leaves, whatever the solver answers. *)
Definition unit_world (config : pyval) (d : Q) (bk : backend)
    (algorithm : pyval) (w : pyworld) : pyworld :=
  ((prepare config d algorithm;; record_call config bk) w).2.

(** The inner submission loop with the call of [submit] spelled out as
    its outcome and its world.  It equals [submit_all] and evaluates
    while the solver is left open. *)
Definition submit_all_flat (g : globals) (algorithm : pyval) (bk : backend)
  : M pyworld unit :=
  for_each (seq 0 (steps + 1)) (fun i =>
    let d := distance i in
    config ← deepcopy (qiskit_chemistry_dict g);
    f ← (fun w => (inr (Future i config d bk algorithm
                          (unit_outcome i config d bk algorithm w)),
                   unit_world config d bk algorithm w));
    append_future f).

(** ** Cell 5: the energy-difference plot *)

Record curve := Curve {
  c_x : list (option Q);
  c_y : list (option Q);
  c_label : string
}.

Record figure := Figure {
  fig_curves : list curve;
  fig_xlabel : string;
  fig_ylabel : string;
  fig_title : string;
  fig_legend : option string
}.

Definition empty_figure : figure := Figure [] "" "" "" None.

(** [np.subtract(a, b)], element by element; a cell that was never
    assigned yields a cell without a defined value. *)
Definition np_subtract (a b : list (option Q)) : list (option Q) :=
  zip_with (fun x y =>
    match x, y with
    | Some x, Some y => Some (x - y)%Q
    | _, _ => None
    end) a b.

Definition pylab_plot (x y : list (option Q)) (label : string)
  : M figure unit :=
  modify (fun f =>
    Figure (fig_curves f ++ [Curve x y label]) (fig_xlabel f) (fig_ylabel f)
           (fig_title f) (fig_legend f)).

Definition pylab_xlabel (s : string) : M figure unit :=
  modify (fun f =>
    Figure (fig_curves f) s (fig_ylabel f) (fig_title f) (fig_legend f)).

Definition pylab_ylabel (s : string) : M figure unit :=
  modify (fun f =>
    Figure (fig_curves f) (fig_xlabel f) s (fig_title f) (fig_legend f)).

Definition pylab_title (s : string) : M figure unit :=
  modify (fun f =>
    Figure (fig_curves f) (fig_xlabel f) (fig_ylabel f) s (fig_legend f)).

Definition pylab_legend (loc : string) : M figure unit :=
  modify (fun f =>
    Figure (fig_curves f) (fig_xlabel f) (fig_ylabel f) (fig_title f)
           (Some loc)).

(** The figure handed to [pylab.show()]. *)
Definition cell5 (st : state) : M figure unit :=
  e1 ← list_getitem (energies st) 1;
  pylab_plot (distances st) (np_subtract (hf_energies st) e1) "Hartree-Fock";;
  e0 ← list_getitem (energies st) 0;
  e1 ← list_getitem (energies st) 1;
  pylab_plot (distances st) (np_subtract e0 e1) "IQPE";;
  pylab_xlabel "Interatomic distance";;
  pylab_ylabel "Energy";;
  pylab_title "Energy difference from ExactEigensolver";;
  pylab_legend "upper right".

(** ** Cell 4: the energy plot *)

(** A curve as [pylab.plot] is handed it: the label is the Python value
    given as [label=]. *)
Record plot_call := Plot {
  p_x : list (option Q);
  p_y : list (option Q);
  p_label : pyval
}.

Record axes := Axes {
  ax_plots : list plot_call;
  ax_xlabel : string;
  ax_ylabel : string;
  ax_title : string;
  ax_legend : option string
}.

Definition empty_axes : axes := Axes [] "" "" "" None.

Definition ax_plot (x y : list (option Q)) (label : pyval) : M axes unit :=
  modify (fun a =>
    Axes (ax_plots a ++ [Plot x y label]) (ax_xlabel a) (ax_ylabel a)
         (ax_title a) (ax_legend a)).

Definition ax_set_xlabel (s : string) : M axes unit :=
  modify (fun a =>
    Axes (ax_plots a) s (ax_ylabel a) (ax_title a) (ax_legend a)).

Definition ax_set_ylabel (s : string) : M axes unit :=
  modify (fun a =>
    Axes (ax_plots a) (ax_xlabel a) s (ax_title a) (ax_legend a)).

Definition ax_set_title (s : string) : M axes unit :=
  modify (fun a =>
    Axes (ax_plots a) (ax_xlabel a) (ax_ylabel a) s (ax_legend a)).

Definition ax_set_legend (loc : string) : M axes unit :=
  modify (fun a =>
    Axes (ax_plots a) (ax_xlabel a) (ax_ylabel a) (ax_title a) (Some loc)).

(** An expression over the interpreter's objects, evaluated while the
    figure is drawn; [w] is the world the cell runs in. *)
Definition reading {A} (w : pyworld) (m : M pyworld A) : M axes A :=
  fun a => ((m w).1, a).

(** The figure handed to [pylab.show()]: the Hartree-Fock curve, then one
    curve for every entry of the algorithm table. *)
Definition cell4 (g : globals) (st : state) : M axes unit :=
  ax_plot (distances st) (hf_energies st) (VStr "Hartree-Fock");;
  for_each (seq 0 (length (algorithms g))) (fun j =>
    row ← list_getitem (energies st) j;
    algorithm ← list_getitem (algorithms g) j;
    name ← reading (st_world st) (getitem algorithm "name");
    ax_plot (distances st) row name);;
  ax_set_xlabel "Interatomic distance";;
  ax_set_ylabel "Energy";;
  ax_set_title "H2 Ground State Energy";;
  ax_set_legend "upper right".

(** ** The interpreter after cell 1, in closed form *)

Definition heap0 : heap :=
  [ [("name", VStr "PYSCF")];
    [("atom", VStr ""); ("basis", VStr "sto3g")];
    [("name", VStr "hamiltonian"); ("transformation", VStr "full");
     ("qubit_mapping", VStr "parity")];
    [("name", VStr "")];
    [("name", VStr "HartreeFock")];
    [("driver", VRef 0); ("PYSCF", VRef 1); ("operator", VRef 2);
     ("algorithm", VRef 3); ("initial_state", VRef 4)];
    [("name", VStr "IQPE"); ("num_iterations", VInt 16);
     ("num_time_slices", VInt 3000); ("expansion_mode", VStr "trotter");
     ("expansion_order", VInt 1)];
    [("name", VStr "ExactEigensolver")] ].

Definition g0 : globals :=
  Globals (VRef 5) [VRef 6; VRef 7] [QasmSimulator; NoBackend].

Definition empty_world : pyworld := World [] [] [].
Definition empty_state : state := State empty_world [] [] [] [].

Definition w0 : pyworld := World heap0 [] [].
Definition st0 : state :=
  State w0 (np_empty2 2 21) (np_empty 21) (np_empty 21) [].

(** The shared configuration as cell 1 assembles it. *)
Definition assembled : tree := view heap0 (qiskit_chemistry_dict g0).

(** The world in which the first unit of work is called: the deep copy
    of the shared configuration is the object at 8, its ['PYSCF']
    dictionary the object at 10. *)
Definition first_unit_world : pyworld :=
  (deepcopy (qiskit_chemistry_dict g0) w0).2.

(** ** The units of the sweep, in closed form *)

Definition algorithm_of (j : nat) : pyval := default (VInt 0) (algorithms g0 !! j).
Definition backend_of (j : nat) : backend := default NoBackend (backends g0 !! j).

(** [t] with the entry at an existing [path] replaced. *)
Fixpoint tree_update (t : tree) (path : list string) (x : tree) : tree :=
  match path with
  | [] => x
  | k :: path' =>
      match t with
      | TDict items =>
          match dict_get items k with
          | Some t' => TDict (dict_set items k (tree_update t' path' x))
          | None => t
          end
      | _ => t
      end
  end.

(** The configuration handed to the solver by the unit of algorithm [j]
    and step [i]. *)
Definition unit_tree (j i : nat) : tree :=
  tree_update
    (tree_update assembled ["PYSCF"; "atom"]
       (TStr (format molecule (float_str (distance i / 2)))))
    ["algorithm"] (view heap0 (algorithm_of j)).

(** A deep copy takes six objects; the copies follow the eight objects of
    cell 1 in the order of submission. *)
Definition unit_config (j i : nat) : pyval := VRef (8 + 6 * (21 * j + i)).

Definition unit_future (j i : nat) : future :=
  Future i (unit_config j i) (distance i) (backend_of j) (algorithm_of j)
         (unit_result i (distance i)
            (solver_run (21 * j + i) (unit_tree j i) (backend_of j))).

Definition planned (j : nat) : list future :=
  unit_future j <$> seq 0 (steps + 1).

(** The world after the submissions of the first [n] passes. *)
Fixpoint world_after (n : nat) : pyworld :=
  match n with
  | O => w0
  | S j => (submit_all g0 (algorithm_of j) (backend_of j) (world_after j)).2
  end.

(** The same through [submit_all_flat]. *)
Fixpoint world_after_flat (n : nat) : pyworld :=
  match n with
  | O => w0
  | S j =>
      (submit_all_flat g0 (algorithm_of j) (backend_of j)
         (world_after_flat j)).2
  end.

Arguments world_after : simpl never.
Arguments world_after_flat : simpl never.

Definition calls_of (j : nat) : list (tree * backend) :=
  (fun i => (unit_tree j i, backend_of j)) <$> seq 0 (steps + 1).

(** ** The aggregation loop as a function of the futures it is given *)

Definition with_world (w : pyworld) (st : state) : state :=
  State w (energies st) (hf_energies st) (distances st) (st_consumed st).

(** The arrays have the sizes cell 1 gives them. *)
Definition shaped (st : state) : Prop :=
  length (energies st) = 2
  /\ Forall (fun row => length row = 21) (energies st)
  /\ length (hf_energies st) = 21
  /\ length (distances st) = 21.

(** The state after one iteration of the loop on a returned tuple. *)
Definition written (j k : nat) (r : nat * Q * Q * Q) (st : state) : state :=
  let '(i, d, energy, hf_energy) := r in
  State (st_world st)
        (alter (fun row => <[i := Some energy]> row) j (energies st))
        (<[i := Some hf_energy]> (hf_energies st))
        (<[i := Some d]> (distances st))
        (st_consumed st ++ [(j, k)]).

Fixpoint aggregate (j : nat) (kfs : list (nat * future)) (st : state)
  : (exn + unit) * state :=
  match kfs with
  | [] => (inr tt, st)
  | (k, f) :: kfs' =>
      match f_outcome f with
      | inl e => (inl e, st)
      | inr r => aggregate j kfs' (written j k r st)
      end
  end.

(** A returned tuple carries the step index of the call, within range. *)
Definition indexed (f : future) : Prop :=
  forall i d energy hf_energy,
    f_outcome f = inr (i, d, energy, hf_energy) ->
    i = f_index f /\ d = f_distance f /\ i < 21.

Definition completed (f : future) : Prop :=
  exists r, f_outcome f = inr r.

(** Cell [i] of a one-dimensional array has been assigned. *)
Definition assigned (a : list (option Q)) (i : nat) : Prop :=
  exists x, a !! i = Some (Some x).

(** Cell [i] of row [j] has been assigned. *)
Definition assigned2 (a : list (list (option Q))) (j i : nat) : Prop :=
  exists row, a !! j = Some row /\ assigned row i.

(** The cell of row [j] and step [i]. *)
Definition cell2 (a : list (list (option Q))) (j i : nat)
  : option (option Q) :=
  row ← a !! j; row !! i.

(** The schedule yields, in each pass, every future submitted so far. *)
Definition valid_order (order : nat -> list nat) : Prop :=
  order 0 ≡ₚ seq 0 21 /\ order 1 ≡ₚ seq 0 42.

(** The state in which the first aggregation loop leaves. *)
Definition after_pass0 (order : nat -> list nat) : (exn + unit) * state :=
  aggregate 0 (as_completed (planned 0) (order 0))
            (with_world (world_after 1) st0).

(** The state in which the second aggregation loop leaves. *)
Definition after_pass1 (order : nat -> list nat) (s1 : state)
  : (exn + unit) * state :=
  aggregate 1 (as_completed (planned 0 ++ planned 1) (order 1))
            (with_world (world_after 2) s1).

(** The settings every run of the solver is to share. *)
Definition specifies (t : tree) : Prop :=
  tree_path t ["driver"; "name"] = Some (TStr "PYSCF")
  /\ tree_path t ["PYSCF"; "basis"] = Some (TStr "sto3g")
  /\ tree_path t ["operator"; "name"] = Some (TStr "hamiltonian")
  /\ tree_path t ["operator"; "transformation"] = Some (TStr "full")
  /\ tree_path t ["operator"; "qubit_mapping"] = Some (TStr "parity")
  /\ tree_path t ["initial_state"; "name"] = Some (TStr "HartreeFock").

(** Every assigned cell of the arrays holds what a unit of work of the
    same step returned; row 0 holds energies of the first algorithm
    only. *)
Definition returned_values (st : state) : Prop :=
  forall (i : nat) (x : Q),
    (distances st !! i = Some (Some x) -> x = distance i)
    /\ (cell2 (energies st) 0 i = Some (Some x) ->
        exists d hf_energy,
          f_outcome (unit_future 0 i) = inr (i, d, x, hf_energy))
    /\ (cell2 (energies st) 1 i = Some (Some x) ->
        exists j d hf_energy,
          j < 2 /\ f_outcome (unit_future j i) = inr (i, d, x, hf_energy))
    /\ (hf_energies st !! i = Some (Some x) ->
        exists j d energy,
          j < 2 /\ f_outcome (unit_future j i) = inr (i, d, energy, x)).

(** * Properties *)

(** The two passes of the sweep. *)
Ltac both_passes j := destruct j as [|[|j]]; [| |lia].

(** ** The monad *)

Lemma bind_run {S A B} (m : M S A) (f : A -> M S B) (s : S) :
  (m ≫= f) s =
  match m s with
  | (inl e, s') => (inl e, s')
  | (inr a, s') => f a s'
  end.
Proof. reflexivity. Qed.

Lemma ret_run {S A} (a : A) (s : S) : (mret a : M S A) s = (inr a, s).
Proof. reflexivity. Qed.

Lemma for_each_ext {S A} (xs : list A) (f g : A -> M S unit) :
  (forall x s, f x s = g x s) -> forall s, for_each xs f s = for_each xs g s.
Proof.
  intros Hfg. induction xs as [|x xs IH]; intros s; simpl; [reflexivity|].
  rewrite !bind_run, Hfg.
  destruct (g x s) as [[e|[]] s']; [reflexivity|apply IH].
Qed.

(** ** Dictionaries *)

Lemma dict_get_set_eq {A} (o : list (string * A)) k v :
  dict_get (dict_set o k v) k = Some v.
Proof.
  induction o as [|[k' v'] o IH]; simpl.
  - rewrite String.eqb_refl. reflexivity.
  - destruct (String.eqb k' k) eqn:E; simpl; rewrite E; [reflexivity|apply IH].
Qed.

Lemma dict_get_set_ne {A} (o : list (string * A)) k k' v :
  k <> k' -> dict_get (dict_set o k v) k' = dict_get o k'.
Proof.
  intros Hne. induction o as [|[k0 v0] o IH]; simpl.
  - destruct (String.eqb_spec k k'); [contradiction|reflexivity].
  - destruct (String.eqb_spec k0 k) as [->|Hk]; simpl.
    + destruct (String.eqb_spec k k'); [contradiction|reflexivity].
    + rewrite IH. reflexivity.
Qed.

Lemma dict_get_map {A B} (f : A -> B) (o : list (string * A)) k :
  dict_get (map (fun kv => (kv.1, f kv.2)) o) k = f <$> dict_get o k.
Proof.
  induction o as [|[k' v'] o IH]; simpl; [reflexivity|].
  destruct (String.eqb k' k); [reflexivity|apply IH].
Qed.

(** ** The string of the molecule *)

Lemma append_empty_r (s : string) : s +:+ "" = s.
Proof.
  induction s as [|c s IH]; [reflexivity|].
  change (String c (s +:+ "") = String c s). f_equal. exact IH.
Qed.

Lemma format_molecule (s : string) :
  format molecule s = "H .0 .0 -" +:+ s +:+ "; H .0 .0 " +:+ s.
Proof.
  transitivity ("H .0 .0 -" +:+ s +:+ "; H .0 .0 " +:+ (s +:+ ""));
    [reflexivity|].
  rewrite append_empty_r. reflexivity.
Qed.

(** ** The unit of work, run on any world *)

Lemma subrountine_run i config d bk algorithm w :
  subrountine i config d bk algorithm w =
  (unit_outcome i config d bk algorithm w,
   unit_world config d bk algorithm w).
Proof.
  unfold subrountine, unit_outcome, unit_world, prepare.
  rewrite !bind_run.
  destruct (getitem config "PYSCF" w) as [[e|pyscf] w1]; [reflexivity|].
  rewrite !bind_run.
  destruct (setitem pyscf "atom" _ w1) as [[e|[]] w2]; [reflexivity|].
  rewrite !bind_run.
  destruct (setitem config "algorithm" algorithm w2) as [[e|[]] w3];
    [reflexivity|].
  rewrite !bind_run.
  unfold solver_call, record_call, modify, unit_result, result_get.
  destruct (solver_run _ _ bk) as [e|result]; [reflexivity|].
  rewrite !bind_run.
  destruct (dict_get result "energy") as [energy|]; [|reflexivity].
  destruct (dict_get result "hf_energy") as [hf|]; reflexivity.
Qed.

Lemma submit_all_eq g algorithm bk w :
  submit_all g algorithm bk w = submit_all_flat g algorithm bk w.
Proof.
  apply for_each_ext. intros i s. rewrite !bind_run.
  destruct (deepcopy (qiskit_chemistry_dict g) s) as [[e|config] s1];
    [reflexivity|].
  rewrite !bind_run. unfold submit. rewrite subrountine_run. reflexivity.
Qed.

Lemma world_after_eq n : world_after n = world_after_flat n.
Proof.
  induction n as [|n IH]; [reflexivity|].
  change (world_after (S n)) with
    (submit_all g0 (algorithm_of n) (backend_of n) (world_after n)).2.
  rewrite IH, submit_all_eq. reflexivity.
Qed.

(** ** The interpreter after cell 1 and after each round of submissions *)

Lemma cell1_run : cell1 empty_state = (inr g0, st0).
Proof. vm_compute. reflexivity. Qed.

Lemma submit_all_run j :
  j < 2 ->
  submit_all g0 (algorithm_of j) (backend_of j) (world_after j)
  = (inr tt, world_after (S j)).
Proof.
  intros Hj.
  rewrite (surjective_pairing (submit_all _ _ _ _)).
  change (submit_all g0 (algorithm_of j) (backend_of j) (world_after j)).2
    with (world_after (S j)).
  f_equal. rewrite world_after_eq, submit_all_eq.
  both_passes j; vm_compute; reflexivity.
Qed.

Lemma futures_after_1 : w_futures (world_after 1) = planned 0.
Proof. rewrite world_after_eq. vm_compute. reflexivity. Qed.

Lemma futures_after_2 : w_futures (world_after 2) = planned 0 ++ planned 1.
Proof. rewrite world_after_eq. vm_compute. reflexivity. Qed.

Lemma calls_after_1 : w_calls (world_after 1) = calls_of 0.
Proof. rewrite world_after_eq. vm_compute. reflexivity. Qed.

Lemma calls_after_2 : w_calls (world_after 2) = calls_of 0 ++ calls_of 1.
Proof. rewrite world_after_eq. vm_compute. reflexivity. Qed.

(** ** The aggregation loop *)

Lemma collect_raise j k f e st :
  f_outcome f = inl e -> collect j (k, f) st = (inl e, st).
Proof.
  intros H. unfold collect, future_result. simpl. rewrite bind_run, H.
  reflexivity.
Qed.

Lemma collect_ok j k f i d energy hf_energy st :
  shaped st -> j < 2 -> i < 21 ->
  f_outcome f = inr (i, d, energy, hf_energy) ->
  collect j (k, f) st = (inr tt, written j k (i, d, energy, hf_energy) st).
Proof.
  intros (He & Hrows & Hhf & Hd) Hj Hi H.
  unfold collect, future_result. simpl. rewrite H.
  destruct (lookup_lt_is_Some_2 (energies st) j) as [row Hrow]; [lia|].
  assert (length row = 21) as Hlen.
  { eapply Forall_lookup_1 in Hrows; eauto. }
  rewrite !bind_run. simpl. rewrite bind_run.
  unfold set_energies, array2_set, array_set. simpl. rewrite Hrow.
  destruct (decide (i < length row)) as [_|]; [|lia].
  rewrite bind_run. unfold set_hf_energies, array_set. simpl.
  destruct (decide (i < length (hf_energies st))) as [_|]; [|lia].
  unfold set_distances, array_set. simpl.
  destruct (decide (i < length (distances st))) as [_|]; [|lia].
  unfold written. do 2 f_equal.
  apply list_eq. intros j'. destruct (decide (j = j')) as [<-|Hne].
  - rewrite list_lookup_insert_eq, list_lookup_alter_eq, Hrow by lia.
    reflexivity.
  - rewrite list_lookup_insert_ne, list_lookup_alter_ne by done. reflexivity.
Qed.

Lemma written_shaped j k r st : shaped st -> shaped (written j k r st).
Proof.
  destruct r as [[[i d] e] hf]. intros (He & Hrows & Hhf & Hd).
  unfold shaped, written. simpl.
  rewrite length_alter, !length_insert. repeat split; try done.
  apply Forall_alter; [done|]. intros row _ Hrow.
  simpl. rewrite length_insert. exact Hrow.
Qed.

Lemma for_each_collect j kfs st :
  shaped st -> j < 2 -> Forall (fun kf => indexed kf.2) kfs ->
  for_each kfs (collect j) st = aggregate j kfs st.
Proof.
  intros Hst Hj Hkfs. revert st Hst.
  induction Hkfs as [|[k f] kfs Hf _ IH]; intros st Hst; [reflexivity|].
  simpl. rewrite bind_run.
  destruct (f_outcome f) as [e|[[[i d] en] hf]] eqn:Hout.
  - rewrite (collect_raise _ _ _ e) by done. reflexivity.
  - destruct (Hf _ _ _ _ Hout) as (_ & _ & Hi).
    rewrite (collect_ok _ _ _ i d en hf) by done.
    apply IH, written_shaped, Hst.
Qed.

Lemma aggregate_world j kfs st :
  st_world (aggregate j kfs st).2 = st_world st.
Proof.
  revert st. induction kfs as [|[k f] kfs IH]; intros st; simpl; [reflexivity|].
  destruct (f_outcome f) as [e|[[[i d] en] hf]]; [reflexivity|].
  rewrite IH. reflexivity.
Qed.

Lemma aggregate_shaped j kfs st :
  shaped st -> shaped (aggregate j kfs st).2.
Proof.
  revert st. induction kfs as [|[k f] kfs IH]; intros st Hst; simpl; [done|].
  destruct (f_outcome f) as [e|r]; [done|]. apply IH, written_shaped, Hst.
Qed.

(** When every yielded future holds a tuple the loop runs to its end and
    consumes the futures one by one, in the order of yielding. *)
Lemma aggregate_completed j kfs st :
  Forall (fun kf => completed kf.2) kfs ->
  (aggregate j kfs st).1 = inr tt
  /\ st_consumed (aggregate j kfs st).2
     = st_consumed st ++ ((fun kf => (j, kf.1)) <$> kfs).
Proof.
  intros H. revert st. induction H as [|[k f] kfs [r Hr] _ IH]; intros st.
  - simpl. rewrite app_nil_r. done.
  - simpl in *. rewrite Hr. destruct (IH (written j k r st)) as [-> ->].
    split; [done|]. destruct r as [[[i d] en] hf]. simpl.
    rewrite <- app_assoc. reflexivity.
Qed.

(** An exception that leaves the loop is the one a yielded future holds. *)
Lemma aggregate_inl j kfs st e :
  (aggregate j kfs st).1 = inl e ->
  exists k f, (k, f) ∈ kfs /\ f_outcome f = inl e.
Proof.
  revert st. induction kfs as [|[k f] kfs IH]; intros st; simpl; [done|].
  destruct (f_outcome f) as [e'|r] eqn:Hout.
  - simpl. intros [= ->]. exists k, f. split; [left|done].
  - intros H. destruct (IH _ H) as (k' & f' & Hin & Hf').
    exists k', f'. split; [right; done|done].
Qed.

Lemma aggregate_inr j kfs st u :
  (aggregate j kfs st).1 = inr u -> Forall (fun kf => completed kf.2) kfs.
Proof.
  revert st. induction kfs as [|[k f] kfs IH]; intros st; simpl; [done|].
  destruct (f_outcome f) as [e'|r] eqn:Hout; [done|].
  intros H. constructor; [exists r; done|]. eapply IH, H.
Qed.

(** Only futures that hold a tuple are ever consumed. *)
Lemma aggregate_consumed j kfs st j' k' :
  (j', k') ∈ st_consumed (aggregate j kfs st).2 ->
  (j', k') ∈ st_consumed st
  \/ (j' = j /\ exists f, (k', f) ∈ kfs /\ completed f).
Proof.
  revert st. induction kfs as [|[k f] kfs IH]; intros st; simpl; [by left|].
  destruct (f_outcome f) as [e'|r] eqn:Hout; [by left|].
  intros H. destruct (IH _ H) as [Hin|(-> & f' & Hin & Hf')].
  - destruct r as [[[i d] en] hf]. simpl in Hin.
    apply elem_of_app in Hin as [Hin|Hin]; [by left|].
    apply list_elem_of_singleton in Hin as [= -> ->].
    right. split; [done|]. exists f. split; [left|exists (i, d, en, hf); done].
  - right. split; [done|]. exists f'. split; [right; done|done].
Qed.

(** *** Cells once assigned stay assigned *)

Lemma assigned_insert a i x i' :
  assigned a i' -> assigned (<[i := Some x]> a) i'.
Proof.
  intros [y Hy]. destruct (decide (i = i')) as [->|Hne].
  - exists x. apply list_lookup_insert_eq. eapply lookup_lt_Some, Hy.
  - exists y. rewrite list_lookup_insert_ne by done. exact Hy.
Qed.

Lemma assigned_insert_eq a i x :
  i < length a -> assigned (<[i := Some x]> a) i.
Proof. intros Hi. exists x. apply list_lookup_insert_eq, Hi. Qed.

Lemma assigned2_alter a j i x j' i' :
  assigned2 a j' i' ->
  assigned2 (alter (fun row => <[i := Some x]> row) j a) j' i'.
Proof.
  intros (row & Hrow & Hi). destruct (decide (j = j')) as [->|Hne].
  - exists (<[i := Some x]> row). rewrite list_lookup_alter_eq, Hrow.
    split; [done|]. apply assigned_insert, Hi.
  - exists row. rewrite list_lookup_alter_ne by done. done.
Qed.

Lemma assigned2_alter_eq a j i x row :
  a !! j = Some row -> i < length row ->
  assigned2 (alter (fun row => <[i := Some x]> row) j a) j i.
Proof.
  intros Hrow Hi. exists (<[i := Some x]> row).
  rewrite list_lookup_alter_eq, Hrow. split; [done|].
  apply assigned_insert_eq, Hi.
Qed.

Lemma aggregate_keeps j kfs st :
  let st' := (aggregate j kfs st).2 in
  (forall j' i', assigned2 (energies st) j' i' -> assigned2 (energies st') j' i')
  /\ (forall i', assigned (hf_energies st) i' -> assigned (hf_energies st') i')
  /\ (forall i', assigned (distances st) i' -> assigned (distances st') i').
Proof.
  revert st. induction kfs as [|[k f] kfs IH]; intros st; simpl; [done|].
  destruct (f_outcome f) as [e'|[[[i d] en] hf]]; [done|].
  destruct (IH (written j k (i, d, en, hf) st)) as (H1 & H2 & H3).
  simpl in *. repeat split; intros.
  - apply H1, assigned2_alter. done.
  - apply H2, assigned_insert. done.
  - apply H3, assigned_insert. done.
Qed.

(** A yielded future that holds the tuple of step [i] leaves the cells of
    step [i] assigned, provided the loop runs to its end. *)
Lemma aggregate_assigns j kfs st k f i d energy hf_energy :
  shaped st -> j < 2 -> i < 21 ->
  Forall (fun kf => completed kf.2) kfs ->
  (k, f) ∈ kfs -> f_outcome f = inr (i, d, energy, hf_energy) ->
  let st' := (aggregate j kfs st).2 in
  assigned2 (energies st') j i
  /\ assigned (hf_energies st') i
  /\ assigned (distances st') i.
Proof.
  intros Hst Hj Hi Hall Hin Hout. revert st Hst.
  induction Hall as [|[k0 f0] kfs [r0 Hr0] _ IH]; intros st Hst.
  { apply elem_of_nil in Hin. done. }
  simpl in *. rewrite Hr0.
  apply elem_of_cons in Hin as [[= <- <-]|Hin].
  - rewrite Hout in Hr0. injection Hr0 as <-.
    destruct (aggregate_keeps j kfs (written j k (i, d, energy, hf_energy) st))
      as (H1 & H2 & H3).
    destruct Hst as (He & Hrows & Hhf & Hd).
    destruct (lookup_lt_is_Some_2 (energies st) j) as [row Hrow]; [lia|].
    assert (length row = 21) by (eapply Forall_lookup_1 in Hrows; eauto).
    repeat split.
    + apply H1. simpl. eapply assigned2_alter_eq; [done|lia].
    + apply H2. simpl. apply assigned_insert_eq. lia.
    + apply H3. simpl. apply assigned_insert_eq. lia.
  - apply IH; [done|]. apply written_shaped, Hst.
Qed.

(** ** The futures of the sweep *)

Lemma unit_result_inr i d r i' d' energy hf_energy :
  unit_result i d r = inr (i', d', energy, hf_energy) -> i' = i /\ d' = d.
Proof.
  unfold unit_result. destruct r as [e|result]; [done|].
  destruct (dict_get result "energy"); [|done].
  destruct (dict_get result "hf_energy"); [|done].
  intros [= -> -> _ _]. done.
Qed.

Lemma planned_elem j f :
  f ∈ planned j -> exists i, i < 21 /\ f = unit_future j i.
Proof.
  unfold planned. intros Hf. apply list_elem_of_fmap in Hf as (i & -> & Hi).
  apply elem_of_seq in Hi. exists i. split; [simpl in Hi; lia|done].
Qed.

Lemma planned_indexed j : Forall indexed (planned j).
Proof.
  apply Forall_forall. intros f Hf.
  destruct (planned_elem _ _ Hf) as (i & Hi & ->).
  intros i' d' en hf Hout. simpl in Hout.
  apply unit_result_inr in Hout as [-> ->]. done.
Qed.

Lemma planned_lookup j i :
  i < 21 -> planned j !! i = Some (unit_future j i).
Proof.
  intros Hi. unfold planned. rewrite list_lookup_fmap, lookup_seq_lt; [done|].
  simpl. lia.
Qed.

Lemma length_planned j : length (planned j) = 21.
Proof. unfold planned. rewrite length_fmap, length_seq. reflexivity. Qed.

Lemma as_completed_elem fs order k f :
  (k, f) ∈ as_completed fs order <-> k ∈ order /\ fs !! k = Some f.
Proof.
  unfold as_completed. rewrite list_elem_of_omap. split.
  - intros (k' & Hk' & H). destruct (fs !! k') as [f'|] eqn:E; [|done].
    simpl in H. injection H as -> ->. done.
  - intros [Hk Hf]. exists k. rewrite Hf. done.
Qed.

Lemma as_completed_middle fs pre k post f :
  fs !! k = Some f ->
  as_completed fs (pre ++ k :: post)
  = as_completed fs pre ++ (k, f) :: as_completed fs post.
Proof.
  intros Hf. unfold as_completed. rewrite omap_app. simpl. rewrite Hf.
  reflexivity.
Qed.

Lemma as_completed_Forall (P : future -> Prop) fs order :
  Forall P fs -> Forall (fun kf => P kf.2) (as_completed fs order).
Proof.
  intros H. apply Forall_forall. intros [k f] Hkf.
  apply as_completed_elem in Hkf as [_ Hf].
  eapply Forall_lookup_1 in H; eauto.
Qed.

Lemma futures_after_indexed j :
  j < 2 -> Forall indexed (w_futures (world_after (S j))).
Proof.
  intros Hj. both_passes j.
  - rewrite futures_after_1. apply planned_indexed.
  - rewrite futures_after_2. apply Forall_app; split; apply planned_indexed.
Qed.

(** ** One pass and the whole notebook, as aggregations *)

Lemma pass_run order j st :
  j < 2 -> st_world st = world_after j -> shaped st ->
  pass g0 order j st =
  aggregate j (as_completed (w_futures (world_after (S j))) (order j))
            (with_world (world_after (S j)) st).
Proof.
  intros Hj Hw Hst. unfold pass.
  assert (list_getitem (S := state) (algorithms g0) j = mret (algorithm_of j))
    as ->.
  { both_passes j; reflexivity. }
  assert (list_getitem (S := state) (backends g0) j = mret (backend_of j))
    as ->.
  { both_passes j; reflexivity. }
  rewrite bind_run, ret_run, bind_run, ret_run, bind_run.
  unfold lift_world at 1. rewrite Hw, submit_all_run by done.
  cbn [fst snd]. rewrite bind_run. unfold gets. cbn [st_world].
  fold (with_world (world_after (S j)) st).
  apply for_each_collect; [exact Hst|exact Hj|].
  apply as_completed_Forall, futures_after_indexed, Hj.
Qed.

Lemma shaped_st0 : shaped st0.
Proof.
  unfold shaped. simpl. repeat split. repeat constructor.
Qed.

Lemma after_pass0_world order :
  st_world (after_pass0 order).2 = world_after 1.
Proof. unfold after_pass0. rewrite aggregate_world. reflexivity. Qed.

Lemma after_pass0_shaped order : shaped (after_pass0 order).2.
Proof. apply aggregate_shaped, shaped_st0. Qed.

Lemma after_pass1_world order s1 :
  st_world (after_pass1 order s1).2 = world_after 2.
Proof. unfold after_pass1. rewrite aggregate_world. reflexivity. Qed.

Lemma notebook_run order :
  notebook order empty_state =
  match after_pass0 order with
  | (inl e, s1) => (inl e, s1)
  | (inr _, s1) =>
      match after_pass1 order s1 with
      | (inl e, s2) => (inl e, s2)
      | (inr _, s2) => (inr tt, s2)
      end
  end.
Proof.
  unfold notebook. rewrite bind_run, cell1_run.
  unfold sweep. rewrite bind_run.
  change (lift_world reset_futures st0) with (inr tt : exn + unit, st0).
  cbn [length algorithms g0 seq for_each]. rewrite bind_run.
  rewrite pass_run; [|lia|reflexivity|apply shaped_st0].
  rewrite futures_after_1. fold (after_pass0 order).
  pose proof (after_pass0_world order) as Hw.
  pose proof (after_pass0_shaped order) as Hs.
  destruct (after_pass0 order) as [[e|[]] s1]; [reflexivity|].
  cbn [fst snd] in Hw, Hs. rewrite bind_run.
  rewrite pass_run; [|lia|exact Hw|exact Hs].
  rewrite futures_after_2. fold (after_pass1 order s1).
  destruct (after_pass1 order s1) as [[e|[]] s2]; reflexivity.
Qed.

(** ** The two assignments of the unit of work, on any heap *)

Lemma entry_insert_ne h l l' o k :
  l <> l' -> entry (<[l := o]> h) l' k = entry h l' k.
Proof. intros Hne. unfold entry. rewrite list_lookup_insert_ne by done. done. Qed.

Lemma entry_insert_eq h l o k :
  l < length h -> entry (<[l := o]> h) l k = dict_get o k.
Proof. intros Hl. unfold entry. rewrite list_lookup_insert_eq by done. done. Qed.

Lemma prepare_run l lp d algorithm w :
  entry (w_heap w) l "PYSCF" = Some (VRef lp) ->
  lp < length (w_heap w) ->
  exists h',
    prepare (VRef l) d algorithm w = (inr tt, set_heap h' w)
    /\ length h' = length (w_heap w)
    /\ entry h' lp "atom"
       = Some (VStr (format molecule (float_str (d / 2))))
    /\ entry h' l "algorithm" = Some algorithm
    /\ (forall l' k, (l', k) <> (lp, "atom") -> (l', k) <> (l, "algorithm") ->
          entry h' l' k = entry (w_heap w) l' k)
    /\ (forall l', l' <> l -> l' <> lp -> h' !! l' = w_heap w !! l').
Proof.
  intros Hl Hlp. set (h := w_heap w) in *.
  unfold entry in Hl. destruct (h !! l) as [o|] eqn:Ho; [|done].
  simpl in Hl. destruct (lookup_lt_is_Some_2 h lp Hlp) as [op Hop].
  assert (l < length h) as Hllen by (eapply lookup_lt_Some, Ho).
  set (s := VStr (format molecule (float_str (d / 2)))).
  set (h1 := <[lp := dict_set op "atom" s]> h).
  assert (exists o1, h1 !! l = Some o1
            /\ forall k, k <> "atom" -> dict_get o1 k = dict_get o k)
    as (o1 & Ho1 & Hk1).
  { destruct (decide (lp = l)) as [->|Hne].
    - exists (dict_set op "atom" s). unfold h1.
      rewrite list_lookup_insert_eq by done. split; [done|].
      intros k Hk. rewrite dict_get_set_ne by done.
      rewrite Ho in Hop. injection Hop as <-. reflexivity.
    - exists o. unfold h1. rewrite list_lookup_insert_ne by done. done. }
  exists (<[l := dict_set o1 "algorithm" algorithm]> h1).
  assert (length h1 = length h) as Hlen1 by apply length_insert.
  split; [|split; [|split; [|split; [|split]]]].
  - unfold prepare. rewrite bind_run. unfold getitem at 1. fold h.
    rewrite Ho, Hl, bind_run. unfold setitem at 1. fold h. rewrite Hop.
    fold s. fold h1. unfold setitem. cbn [set_heap w_heap]. rewrite Ho1.
    reflexivity.
  - rewrite length_insert. exact Hlen1.
  - destruct (decide (l = lp)) as [->|Hne].
    + rewrite entry_insert_eq by lia. rewrite dict_get_set_ne by done.
      unfold h1 in Ho1. rewrite list_lookup_insert_eq in Ho1 by done.
      injection Ho1 as <-. apply dict_get_set_eq.
    + rewrite entry_insert_ne by done. unfold h1.
      rewrite entry_insert_eq by done. apply dict_get_set_eq.
  - rewrite entry_insert_eq by lia. apply dict_get_set_eq.
  - intros l' k H1 H2. destruct (decide (l = l')) as [<-|Hne].
    + rewrite entry_insert_eq by lia.
      assert (k <> "algorithm") as Hk by congruence.
      rewrite dict_get_set_ne by done.
      destruct (decide (lp = l)) as [->|Hne'].
      * unfold h1 in Ho1. rewrite list_lookup_insert_eq in Ho1 by done.
        injection Ho1 as <-. assert (k <> "atom") by congruence.
        rewrite dict_get_set_ne by done. unfold entry. rewrite Hop. done.
      * unfold h1 in Ho1. rewrite list_lookup_insert_ne in Ho1 by done.
        unfold entry. rewrite Ho. simpl. congruence.
    + rewrite entry_insert_ne by done. unfold h1.
      destruct (decide (lp = l')) as [<-|Hne'].
      * rewrite entry_insert_eq by done. assert (k <> "atom") by congruence.
        rewrite dict_get_set_ne by done. unfold entry. rewrite Hop. done.
      * rewrite entry_insert_ne by done. done.
  - intros l' H1 H2. unfold h1. rewrite !list_lookup_insert_ne by done. done.
Qed.

(** ** Views and the objects they depend on *)

Lemma reach_mono n n' h v x :
  n <= n' -> x ∈ reach n h v -> x ∈ reach n' h v.
Proof.
  revert n' v x. induction n as [|n IH]; intros n' v x Hle Hx.
  - destruct v as [| |l]; simpl in *;
      try (apply elem_of_nil in Hx; contradiction).
    apply list_elem_of_singleton in Hx as ->. destruct n'; left.
  - destruct n' as [|n']; [lia|].
    destruct v as [| |l]; simpl in *;
      try (apply elem_of_nil in Hx; contradiction).
    apply elem_of_cons in Hx as [->|Hx]; [left|right].
    destruct (h !! l) as [o|]; [|apply elem_of_nil in Hx; contradiction].
    apply list_elem_of_In, in_flat_map in Hx as (kv & Hkv & Hx).
    apply list_elem_of_In, in_flat_map. exists kv. split; [done|].
    apply list_elem_of_In, IH; [lia|]. apply list_elem_of_In, Hx.
Qed.

(** A view only depends on the objects reachable from the value. *)
Lemma snap_frame n h h' v :
  (forall x, x ∈ reach n h v -> h' !! x = h !! x) ->
  snap n h' v = snap n h v.
Proof.
  revert v. induction n as [|n IH]; intros v Hx.
  - destruct v; reflexivity.
  - destruct v as [| |l]; simpl in *; try reflexivity.
    rewrite Hx by left. destruct (h !! l) as [o|] eqn:Ho; [|reflexivity].
    f_equal. apply map_ext_in. intros kv Hkv. f_equal.
    apply IH. intros x Hreach. apply Hx. right.
    apply list_elem_of_In, in_flat_map. exists kv. split; [done|].
    apply list_elem_of_In, Hreach.
Qed.

Lemma tree_path_snap n h l k p :
  tree_path (snap (S n) h (VRef l)) (k :: p) =
  x ← entry h l k; tree_path (snap n h x) p.
Proof.
  unfold entry. simpl. destruct (h !! l) as [o|]; simpl; [|reflexivity].
  rewrite dict_get_map. destruct (dict_get o k); reflexivity.
Qed.

(** A value none of whose reachable objects is [l] or [lp] is viewed the
    same in two heaps that differ at [l] and [lp] only. *)
Lemma snap_apart n h h' l lp v :
  n <= length h ->
  (forall l', l' <> l -> l' <> lp -> h' !! l' = h !! l') ->
  apart h (Some v) l lp ->
  snap n h' v = snap n h v.
Proof.
  intros Hn Hframe [Hl Hlp]. apply snap_frame. intros x Hx.
  apply Hframe; intros ->.
  - apply Hl. eapply reach_mono, Hx. exact Hn.
  - apply Hlp. eapply reach_mono, Hx. exact Hn.
Qed.

Lemma subrountine_prepared i l d bk algorithm w h' :
  prepare (VRef l) d algorithm w = (inr tt, set_heap h' w) ->
  subrountine i (VRef l) d bk algorithm w =
  (unit_result i d (solver_run (length (w_calls w)) (view h' (VRef l)) bk),
   World h' (w_calls w ++ [(view h' (VRef l), bk)]) (w_futures w)).
Proof.
  intros Hp. rewrite subrountine_run. unfold unit_outcome, unit_world.
  rewrite bind_run, Hp. reflexivity.
Qed.

Lemma view_section_same h h' l lp k :
  length h' = length h ->
  (forall l', l' <> l -> l' <> lp -> h' !! l' = h !! l') ->
  entry h' l k = entry h l k ->
  apart h (entry h l k) l lp ->
  tree_path (view h' (VRef l)) [k] = tree_path (view h (VRef l)) [k].
Proof.
  intros Hlen Hframe Hk Hapart. unfold view. rewrite Hlen.
  destruct (length h) as [|m] eqn:Hm; [reflexivity|].
  rewrite !tree_path_snap, Hk.
  destruct (entry h l k) as [v|]; [|reflexivity]. simpl. f_equal.
  eapply snap_apart; [lia|exact Hframe|exact Hapart].
Qed.

(** C10: a unit of work changes two entries of the configuration it is
    given, the ['atom'] entry of the dictionary under ['PYSCF'] and the
    top-level ['algorithm'] entry: the heap keeps its size, every other
    object and every other entry of the two objects is as before; and the
    solver is handed a configuration whose ['driver'], ['operator'] and
    ['initial_state'] sections and whose basis-set entry read as they did
    before the call (these sections being objects of their own). *)
Theorem C10_subrountine_changes_two_entries
    (i : nat) (l lp : loc) (d : Q) (bk : backend) (algorithm : pyval)
    (w : pyworld) :
  let h := w_heap w in
  let run := subrountine i (VRef l) d bk algorithm w in
  let h' := w_heap run.2 in
  entry h l "PYSCF" = Some (VRef lp) ->
  lp < length h ->
  Forall (fun k => apart h (entry h l k) l lp)
         ["driver"; "operator"; "initial_state"] ->
  apart h (entry h lp "basis") l lp ->
  length h' = length h
  /\ (forall l', l' <> l -> l' <> lp -> h' !! l' = h !! l')
  /\ (forall l' k, (l', k) <> (lp, "atom") -> (l', k) <> (l, "algorithm") ->
        entry h' l' k = entry h l' k)
  /\ last (w_calls run.2) = Some (view h' (VRef l), bk)
  /\ Forall (fun k => tree_path (view h' (VRef l)) [k]
                      = tree_path (view h (VRef l)) [k])
            ["driver"; "operator"; "initial_state"]
  /\ tree_path (view h' (VRef l)) ["PYSCF"; "basis"]
     = tree_path (view h (VRef l)) ["PYSCF"; "basis"].
Proof.
  intros h run h' Hl Hlp Hsections Hbasis.
  destruct (prepare_run l lp d algorithm w Hl Hlp)
    as (hp & Hrun & Hlen & Hatom & Halg & Hentries & Hframe).
  assert (run = (unit_result i d
                   (solver_run (length (w_calls w)) (view hp (VRef l)) bk),
                 World hp (w_calls w ++ [(view hp (VRef l), bk)])
                       (w_futures w))) as Hr.
  { apply subrountine_prepared, Hrun. }
  assert (h' = hp) as -> by (unfold h'; rewrite Hr; reflexivity).
  fold h in Hlen, Hentries, Hframe.
  split; [exact Hlen|]. split; [exact Hframe|]. split; [exact Hentries|].
  split; [rewrite Hr; apply last_snoc|]. split.
  - apply Forall_forall. intros k Hk.
    rewrite Forall_forall in Hsections. specialize (Hsections k Hk).
    assert (k <> "atom" /\ k <> "algorithm") as [Ha Hb].
    { split; intros ->;
        repeat (apply elem_of_cons in Hk as [Hk|Hk]; [discriminate Hk|]);
        apply elem_of_nil in Hk; exact Hk. }
    apply view_section_same with (lp := lp); try done.
    apply Hentries; intros [= ]; subst; done.
  - unfold view. rewrite Hlen.
    assert (entry hp l "PYSCF" = entry h l "PYSCF") as Hp.
    { apply Hentries; intros [= ]. }
    assert (entry hp lp "basis" = entry h lp "basis") as Hb.
    { apply Hentries; intros [= ]. }
    destruct (length h) as [|m] eqn:Hm; [reflexivity|].
    rewrite !tree_path_snap, Hp, Hl. cbn [mbind option_bind].
    destruct m as [|m]; [reflexivity|].
    rewrite !tree_path_snap, Hb.
    destruct (entry h lp "basis") as [v|]; [|reflexivity]. simpl. f_equal.
    eapply snap_apart; [lia|exact Hframe|exact Hbasis].
Qed.

(** C2: given step index, distance, configuration, backend and algorithm,
    the unit of work stores the geometry string of two hydrogen atoms at
    [-d/2] and [d/2] on the z axis (which are [d] apart) under
    ['PYSCF']['atom'], stores the given algorithm under ['algorithm'],
    invokes the solver once, on the configuration so changed, and returns
    the step index and the distance it was given together with the two
    energies of the solver's result. *)
Theorem C2_subrountine_unit_of_work
    (i : nat) (l lp : loc) (d : Q) (bk : backend) (algorithm : pyval)
    (w : pyworld) :
  let run := subrountine i (VRef l) d bk algorithm w in
  let h' := w_heap run.2 in
  entry (w_heap w) l "PYSCF" = Some (VRef lp) ->
  lp < length (w_heap w) ->
  entry h' l "PYSCF" = Some (VRef lp)
  /\ entry h' lp "atom"
     = Some (VStr ("H .0 .0 -" +:+ float_str (d / 2)
                   +:+ "; H .0 .0 " +:+ float_str (d / 2)))
  /\ (d / 2 - - (d / 2) == d)%Q
  /\ entry h' l "algorithm" = Some algorithm
  /\ w_calls run.2 = w_calls w ++ [(view h' (VRef l), bk)]
  /\ run.1 = unit_result i d
               (solver_run (length (w_calls w)) (view h' (VRef l)) bk)
  /\ (forall result energy hf_energy,
        solver_run (length (w_calls w)) (view h' (VRef l)) bk = inr result ->
        dict_get result "energy" = Some energy ->
        dict_get result "hf_energy" = Some hf_energy ->
        run.1 = inr (i, d, energy, hf_energy)).
Proof.
  intros run h' Hl Hlp.
  destruct (prepare_run l lp d algorithm w Hl Hlp)
    as (hp & Hrun & Hlen & Hatom & Halg & Hentries & Hframe).
  assert (run = (unit_result i d
                   (solver_run (length (w_calls w)) (view hp (VRef l)) bk),
                 World hp (w_calls w ++ [(view hp (VRef l), bk)])
                       (w_futures w))) as Hr.
  { apply subrountine_prepared, Hrun. }
  assert (h' = hp) as -> by (unfold h'; rewrite Hr; reflexivity).
  split.
  { rewrite Hentries, Hl; [done|intros [= ]|intros [= ]]. }
  split; [rewrite Hatom, format_molecule; reflexivity|].
  split; [field|]. split; [exact Halg|].
  split; [rewrite Hr; reflexivity|]. split; [rewrite Hr; reflexivity|].
  intros result energy hf_energy Hsolver He Hhf.
  rewrite Hr. simpl. rewrite Hsolver. simpl. rewrite He, Hhf. reflexivity.
Qed.

(** ** The world the notebook ends in *)

Lemma notebook_world order :
  let r := notebook order empty_state in
  ((exists e, r.1 = inl e) /\ st_world r.2 = world_after 1)
  \/ st_world r.2 = world_after 2.
Proof.
  cbv zeta. rewrite notebook_run.
  pose proof (after_pass0_world order) as Hw0.
  destruct (after_pass0 order) as [[e|[]] s1]; cbn [fst snd] in *.
  { left. split; [exists e; reflexivity|exact Hw0]. }
  pose proof (after_pass1_world order s1) as Hw1.
  destruct (after_pass1 order s1) as [[e|[]] s2]; right; exact Hw1.
Qed.

Lemma notebook_world_inr order st' :
  notebook order empty_state = (inr tt, st') -> st_world st' = world_after 2.
Proof.
  intros H. destruct (notebook_world order) as [[[e He] _]|Hw];
    rewrite H in *; [discriminate He|exact Hw].
Qed.

Lemma lookup_planned_both j i :
  j < 2 -> i < 21 ->
  (planned 0 ++ planned 1) !! (21 * j + i) = Some (unit_future j i).
Proof.
  intros Hj Hi. both_passes j.
  - rewrite lookup_app_l by (rewrite length_planned; lia).
    replace (21 * 0 + i) with i by lia. apply planned_lookup, Hi.
  - rewrite lookup_app_r by (rewrite length_planned; lia).
    rewrite length_planned. replace (21 * 1 + i - 21) with i by lia.
    apply planned_lookup, Hi.
Qed.

Lemma lookup_calls_both j i :
  j < 2 -> i < 21 ->
  (calls_of 0 ++ calls_of 1) !! (21 * j + i)
  = Some (unit_tree j i, backend_of j).
Proof.
  intros Hj Hi.
  assert (forall j', length (calls_of j') = 21) as Hlen.
  { intros j'. unfold calls_of. rewrite length_fmap, length_seq. done. }
  assert (forall j', calls_of j' !! i = Some (unit_tree j' i, backend_of j'))
    as Hlook.
  { intros j'. unfold calls_of.
    rewrite list_lookup_fmap, lookup_seq_lt; [done|simpl; lia]. }
  both_passes j.
  - rewrite lookup_app_l by (rewrite Hlen; lia).
    replace (21 * 0 + i) with i by lia. apply Hlook.
  - rewrite lookup_app_r by (rewrite Hlen; lia).
    rewrite Hlen. replace (21 * 1 + i - 21) with i by lia. apply Hlook.
Qed.

Lemma unit_tree_specifies j i : j < 2 -> specifies (unit_tree j i).
Proof.
  intros Hj. both_passes j;
    vm_compute; repeat split; reflexivity.
Qed.

(** C5: the configuration assembled by cell 1 names the PYSCF driver, the
    sto3g basis set, the hamiltonian operator with the full transformation
    and the parity qubit mapping, and the HartreeFock initial state; and
    every configuration handed to the solver during the sweep, whatever
    the schedule and the solver's answers, reads the same there. *)
Theorem C5_shared_configuration (order : nat -> list nat) :
  (exists g st,
      cell1 empty_state = (inr g, st)
      /\ specifies (view (w_heap (st_world st)) (qiskit_chemistry_dict g)))
  /\ Forall (fun c => specifies c.1)
            (w_calls (st_world (notebook order empty_state).2)).
Proof.
  split.
  - exists g0, st0. split; [apply cell1_run|].
    vm_compute. repeat split; reflexivity.
  - assert (forall j, j < 2 -> Forall (fun c => specifies c.1) (calls_of j))
      as Hcalls.
    { intros j Hj. unfold calls_of. apply Forall_fmap, Forall_forall.
      intros i _. apply unit_tree_specifies, Hj. }
    destruct (notebook_world order) as [[_ ->]| ->].
    + rewrite calls_after_1. apply Hcalls. lia.
    + rewrite calls_after_2. apply Forall_app. split; apply Hcalls; lia.
Qed.

Lemma algorithm_names j :
  j < 2 ->
  tree_path (view (w_heap (world_after 2)) (algorithm_of j)) ["name"]
  = Some (TStr (if decide (j = 0) then "IQPE" else "ExactEigensolver")).
Proof.
  intros Hj. rewrite world_after_eq.
  both_passes j; vm_compute; reflexivity.
Qed.

(** C3: a sweep that runs to its end has submitted 42 units of work and
    made 42 solver calls; the unit of algorithm [j] and step [i] is at
    position [21 * j + i], carries step index [i] and distance
    [distance i], and is paired with the [j]-th algorithm and the [j]-th
    backend: IQPE with the qasm simulator for [j = 0], ExactEigensolver
    with no backend for [j = 1]. *)
Theorem C3_sweep_submits_42_units
    (order : nat -> list nat) (st' : state) (j i : nat) :
  notebook order empty_state = (inr tt, st') ->
  j < 2 -> i <= 20 ->
  let w' := st_world st' in
  length (w_futures w') = 42
  /\ length (w_calls w') = 42
  /\ exists f,
       w_futures w' !! (21 * j + i) = Some f
       /\ f_index f = i
       /\ f_distance f = distance i
       /\ algorithms g0 !! j = Some (f_algorithm f)
       /\ backends g0 !! j = Some (f_backend f)
       /\ f_backend f = (if decide (j = 0) then QasmSimulator else NoBackend)
       /\ tree_path (view (w_heap w') (f_algorithm f)) ["name"]
          = Some (TStr (if decide (j = 0) then "IQPE"
                        else "ExactEigensolver"))
       /\ w_calls w' !! (21 * j + i) = Some (unit_tree j i, f_backend f).
Proof.
  intros Hrun Hj Hi w'. unfold w'.
  rewrite (notebook_world_inr _ _ Hrun), futures_after_2, calls_after_2.
  split; [rewrite length_app, !length_planned; reflexivity|].
  split; [unfold calls_of; rewrite length_app, !length_fmap, !length_seq;
          reflexivity|].
  exists (unit_future j i).
  split; [apply lookup_planned_both; lia|].
  split; [reflexivity|]. split; [reflexivity|].
  split; [both_passes j; reflexivity|].
  split; [both_passes j; reflexivity|].
  split; [both_passes j; reflexivity|].
  split; [apply algorithm_names, Hj|].
  apply lookup_calls_both; lia.
Qed.

(** ** The distances *)

Lemma distance_closed_form i :
  (distance i == 0.5 + inject_Z (Z.of_nat i) * 0.025)%Q.
Proof.
  unfold distance, start, by_, steps.
  change (inject_Z (Z.of_nat 20)) with (20 # 1)%Q. field.
Qed.

Lemma distance_step i : (distance (S i) - distance i == 0.025)%Q.
Proof.
  rewrite !distance_closed_form, Nat2Z.inj_succ.
  unfold Z.succ. rewrite inject_Z_plus. field.
Qed.

(** C8: the distance of step [i] is [start + i*by/steps]; in exact
    arithmetic this is [0.5 + 0.025 i], so that the 21 distances start at
    0.5, end at 1, grow by 0.025 from one step to the next, and are the
    distances of the submitted units of both algorithms. *)
Theorem C8_distances_of_the_sweep (i : nat) :
  i <= 20 ->
  distance i
  = (start + inject_Z (Z.of_nat i) * by_ / inject_Z (Z.of_nat steps))%Q
  /\ (distance i == 0.5 + inject_Z (Z.of_nat i) * 0.025)%Q
  /\ (distance 0 == 0.5)%Q
  /\ (distance 20 == 1)%Q
  /\ (0.5 <= distance i)%Q /\ (distance i <= 1)%Q
  /\ (i < 20 ->
      (distance (S i) - distance i == 0.025)%Q
      /\ (distance i < distance (S i))%Q)
  /\ (forall j, j < 2 ->
        exists f, w_futures (world_after 2) !! (21 * j + i) = Some f
                  /\ f_index f = i /\ f_distance f = distance i).
Proof.
  intros Hi.
  split; [reflexivity|]. split; [apply distance_closed_form|].
  split; [reflexivity|]. split; [reflexivity|].
  assert (0 <= inject_Z (Z.of_nat i) <= 20)%Q as [Hlo Hhi].
  { change 0%Q with (inject_Z 0). change 20%Q with (inject_Z 20).
    rewrite <- !Zle_Qle. lia. }
  split; [rewrite distance_closed_form; lra|].
  split; [rewrite distance_closed_form; lra|].
  split.
  - intros _. split; [apply distance_step|].
    pose proof (distance_step i) as Hstep. lra.
  - intros j Hj. exists (unit_future j i). rewrite futures_after_2.
    split; [apply lookup_planned_both; lia|]. split; reflexivity.
Qed.

(** *** The last write to a cell decides its content *)

Lemma written_cell_ne j k i' d energy hf_energy st j0 i :
  i' <> i ->
  cell2 (energies (written j k (i', d, energy, hf_energy) st)) j0 i
  = cell2 (energies st) j0 i.
Proof.
  intros Hne. unfold cell2, written. cbn [energies].
  destruct (decide (j = j0)) as [<-|Hj].
  - rewrite list_lookup_alter_eq. destruct (energies st !! j) as [row|];
      [|reflexivity].
    simpl. apply list_lookup_insert_ne, Hne.
  - rewrite list_lookup_alter_ne by exact Hj. reflexivity.
Qed.

Lemma written_cell_eq j k i d energy hf_energy st :
  shaped st -> j < 2 -> i < 21 ->
  cell2 (energies (written j k (i, d, energy, hf_energy) st)) j i
  = Some (Some energy).
Proof.
  intros (He & Hrows & _) Hj Hi. unfold cell2, written. cbn [energies].
  destruct (lookup_lt_is_Some_2 (energies st) j) as [row Hrow]; [lia|].
  assert (length row = 21) by (eapply Forall_lookup_1 in Hrows; eauto).
  rewrite list_lookup_alter_eq, Hrow. simpl.
  apply list_lookup_insert_eq. lia.
Qed.

Lemma aggregate_cell_keeps j kfs st j0 i :
  Forall (fun kf => indexed kf.2) kfs ->
  Forall (fun kf => f_index kf.2 <> i) kfs ->
  cell2 (energies (aggregate j kfs st).2) j0 i = cell2 (energies st) j0 i.
Proof.
  intros Hidx Hne. revert st.
  induction kfs as [|[k f] kfs IH]; intros st; [reflexivity|].
  apply Forall_cons in Hidx as [Hf Hidx].
  apply Forall_cons in Hne as [Hfi Hne].
  cbn [aggregate]. destruct (f_outcome f) as [e|[[[i' d] en] hf]] eqn:Hout;
    [reflexivity|].
  destruct (Hf _ _ _ _ Hout) as (-> & _ & _).
  rewrite IH by assumption. apply written_cell_ne, Hfi.
Qed.

Lemma aggregate_last j xs k f ys st i d energy hf_energy :
  shaped st -> j < 2 -> i < 21 ->
  Forall (fun kf => completed kf.2) xs ->
  Forall (fun kf => indexed kf.2) ys ->
  Forall (fun kf => f_index kf.2 <> i) ys ->
  f_outcome f = inr (i, d, energy, hf_energy) ->
  cell2 (energies (aggregate j (xs ++ (k, f) :: ys) st).2) j i
  = Some (Some energy).
Proof.
  intros Hst Hj Hi Hxs Hidx Hne Hout. revert st Hst.
  induction Hxs as [|[k0 f0] xs [r0 Hr0] _ IH]; intros st Hst.
  - cbn [app aggregate]. rewrite Hout, aggregate_cell_keeps by assumption.
    apply written_cell_eq; assumption.
  - cbn [app aggregate]. cbn [snd] in Hr0. rewrite Hr0.
    apply IH, written_shaped, Hst.
Qed.

Lemma lookup_planned_index k f :
  (planned 0 ++ planned 1) !! k = Some f ->
  k = f_index f \/ k = 21 + f_index f.
Proof.
  intros Hf.
  assert (k < 42) as Hk.
  { apply lookup_lt_Some in Hf.
    rewrite length_app, !length_planned in Hf. exact Hf. }
  destruct (decide (k < 21)) as [Hlt|Hge].
  - left. replace k with (21 * 0 + k) in Hf at 1 by lia.
    rewrite (lookup_planned_both 0 k) in Hf by lia.
    injection Hf as <-. reflexivity.
  - right. replace k with (21 * 1 + (k - 21)) in Hf at 1 by lia.
    rewrite (lookup_planned_both 1 (k - 21)) in Hf by lia.
    injection Hf as <-. cbn [unit_future f_index]. lia.
Qed.

(** ** A pass over futures that all hold a tuple *)

Lemma as_completed_positions fs order :
  (forall k, k ∈ order -> is_Some (fs !! k)) ->
  (as_completed fs order).*1 = order.
Proof.
  induction order as [|k order IH]; intros Hk; [reflexivity|].
  unfold as_completed in *. simpl.
  destruct (Hk k) as [f Hf]; [left|]. rewrite Hf. simpl. f_equal.
  apply IH. intros k' Hk'. apply Hk. right. exact Hk'.
Qed.

Lemma pass_completed j fs order n st :
  j < 2 -> shaped st ->
  order ≡ₚ seq 0 n -> length fs = n ->
  Forall indexed fs -> Forall completed fs ->
  let r := aggregate j (as_completed fs order) st in
  r.1 = inr tt
  /\ shaped r.2
  /\ st_consumed r.2 = st_consumed st ++ ((fun k => (j, k)) <$> order)
  /\ (forall k f, fs !! k = Some f ->
        assigned2 (energies r.2) j (f_index f)
        /\ assigned (hf_energies r.2) (f_index f)
        /\ assigned (distances r.2) (f_index f)).
Proof.
  intros Hj Hst Hperm Hlen Hidx Hall r.
  assert (forall k, k ∈ order <-> k < n) as Hin.
  { intros k. rewrite Hperm, elem_of_seq. lia. }
  assert (Forall (fun kf => completed kf.2) (as_completed fs order)) as Hc.
  { apply as_completed_Forall, Hall. }
  destruct (aggregate_completed j _ st Hc) as [Hres Hcons].
  split; [exact Hres|]. split; [apply aggregate_shaped, Hst|]. split.
  - unfold r. rewrite Hcons. f_equal.
    rewrite <- (as_completed_positions fs order) at 2.
    + rewrite <- !list_fmap_compose. reflexivity.
    + intros k Hk. apply lookup_lt_is_Some_2. rewrite Hlen. apply Hin, Hk.
  - intros k f Hf.
    assert (completed f) as [[[[i d] en] hf] Hout].
    { eapply Forall_lookup_1 in Hall; eauto. }
    assert (indexed f) as Hi by (eapply Forall_lookup_1 in Hidx; eauto).
    destruct (Hi _ _ _ _ Hout) as (<- & _ & Hi21).
    eapply aggregate_assigns; eauto.
    apply as_completed_elem. split; [|exact Hf].
    apply Hin. rewrite <- Hlen. eapply lookup_lt_Some, Hf.
Qed.

(** The sweep when every unit returns a tuple. *)
Lemma notebook_completed order :
  valid_order order ->
  Forall completed (w_futures (world_after 2)) ->
  exists st',
    notebook order empty_state = (inr tt, st')
    /\ shaped st'
    /\ st_consumed st'
       = ((fun k => (0, k)) <$> order 0) ++ ((fun k => (1, k)) <$> order 1)
    /\ (forall i, i <= 20 ->
          assigned (distances st') i
          /\ assigned (hf_energies st') i
          /\ assigned2 (energies st') 0 i
          /\ assigned2 (energies st') 1 i)
    /\ (exists s1,
          shaped s1
          /\ st' = (aggregate 1 (as_completed (planned 0 ++ planned 1)
                                   (order 1)) s1).2).
Proof.
  intros [Hp0 Hp1] Hall. rewrite futures_after_2 in Hall.
  apply Forall_app in Hall as Hboth. destruct Hboth as [Hall0 _].
  rewrite notebook_run. unfold after_pass0.
  destruct (pass_completed 0 (planned 0) (order 0) 21
              (with_world (world_after 1) st0))
    as (Hres0 & Hsh0 & Hcons0 & Has0);
    [lia|apply shaped_st0|exact Hp0|apply length_planned
    |apply planned_indexed|exact Hall0|].
  destruct (aggregate 0 _ _) as [r0 s1]. cbn [fst snd] in *. subst r0.
  unfold after_pass1.
  destruct (pass_completed 1 (planned 0 ++ planned 1) (order 1) 42
              (with_world (world_after 2) s1))
    as (Hres1 & Hsh1 & Hcons1 & Has1);
    [lia|exact Hsh0|exact Hp1
    |rewrite length_app, !length_planned; reflexivity
    |apply Forall_app; split; apply planned_indexed|exact Hall|].
  destruct (aggregate_keeps 1
              (as_completed (planned 0 ++ planned 1) (order 1))
              (with_world (world_after 2) s1)) as (Hk1 & Hk2 & Hk3).
  destruct (aggregate 1 _ _) as [r1 s2] eqn:Hagg. cbn [fst snd] in *.
  subst r1.
  exists s2. split; [reflexivity|]. split; [exact Hsh1|].
  split; [|split].
  - rewrite Hcons1. cbn [with_world st_consumed]. rewrite Hcons0.
    reflexivity.
  - intros i Hi.
    destruct (Has0 i (unit_future 0 i)) as (H0e & H0h & H0d);
      [apply planned_lookup; lia|].
    destruct (Has1 (21 * 1 + i) (unit_future 1 i)) as (H1e & H1h & H1d);
      [apply lookup_planned_both; lia|].
    cbn [unit_future f_index] in *.
    split; [exact H1d|]. split; [exact H1h|]. split; [|exact H1e].
    apply Hk1. exact H0e.
  - exists (with_world (world_after 2) s1). split; [exact Hsh0|].
    rewrite Hagg. reflexivity.
Qed.

(** C9: when every unit of work returns, the notebook runs to its end
    with arrays of the sizes of cell 1 in which every cell of [distances],
    of [hf_energies] and of both rows of [energies] has been assigned. *)
Theorem C9_every_cell_assigned (order : nat -> list nat) :
  valid_order order ->
  Forall completed (w_futures (world_after 2)) ->
  exists st',
    notebook order empty_state = (inr tt, st')
    /\ length (distances st') = 21
    /\ length (hf_energies st') = 21
    /\ length (energies st') = 2
    /\ Forall (fun row => length row = 21) (energies st')
    /\ (forall i, i <= 20 ->
          assigned (distances st') i
          /\ assigned (hf_energies st') i
          /\ assigned2 (energies st') 0 i
          /\ assigned2 (energies st') 1 i).
Proof.
  intros Hvalid Hall.
  destruct (notebook_completed order Hvalid Hall)
    as (st' & Hrun & (He & Hrows & Hhf & Hd) & _ & Hassigned & _).
  exists st'. split; [exact Hrun|]. split; [exact Hd|]. split; [exact Hhf|].
  split; [exact He|]. split; [exact Hrows|]. exact Hassigned.
Qed.

(** C1, as the code has it: when every unit returns, the first loop
    consumes the futures of the first algorithm and the second loop
    consumes every future submitted so far, those of the first algorithm
    once more.  A future of the first algorithm is thus consumed in both
    passes, and when the second loop yields it after the future of the
    second algorithm for the same step, row 1 ends with the energy of the
    first algorithm at that step. *)
Theorem C1_first_algorithm_consumed_in_both_passes
    (order : nat -> list nat) (k : nat) :
  valid_order order ->
  Forall completed (w_futures (world_after 2)) ->
  k < 21 ->
  exists st',
    notebook order empty_state = (inr tt, st')
    /\ st_consumed st'
       = ((fun k => (0, k)) <$> order 0) ++ ((fun k => (1, k)) <$> order 1)
    /\ (0, k) ∈ st_consumed st'
    /\ (1, k) ∈ st_consumed st'
    /\ (forall pre post d energy hf_energy,
          order 1 = pre ++ k :: post ->
          21 + k ∈ pre ->
          f_outcome (unit_future 0 k) = inr (k, d, energy, hf_energy) ->
          cell2 (energies st') 1 k = Some (Some energy)).
Proof.
  intros Hvalid Hall Hk.
  destruct (notebook_completed order Hvalid Hall)
    as (st' & Hrun & _ & Hcons & _ & s1 & Hs1 & Hst').
  exists st'. split; [exact Hrun|]. split; [exact Hcons|].
  destruct Hvalid as [Hp0 Hp1]. rewrite Hcons. split; [|split].
  - apply elem_of_app. left. apply list_elem_of_fmap. exists k.
    split; [done|]. rewrite Hp0. apply elem_of_seq. lia.
  - apply elem_of_app. right. apply list_elem_of_fmap. exists k.
    split; [done|]. rewrite Hp1. apply elem_of_seq. lia.
  - intros pre post d energy hf_energy Horder Hpre Hout.
    rewrite futures_after_2 in Hall.
    assert (NoDup (pre ++ k :: post)) as Hnodup.
    { rewrite <- Horder, Hp1. apply NoDup_seq. }
    apply NoDup_app in Hnodup as (_ & Hdisj & Hkpost).
    apply NoDup_cons in Hkpost as [Hkpost _].
    assert (as_completed (planned 0 ++ planned 1) (order 1)
            = as_completed (planned 0 ++ planned 1) pre
              ++ (k, unit_future 0 k)
              :: as_completed (planned 0 ++ planned 1) post) as Hsplit.
    { pose proof (lookup_planned_both 0 k ltac:(lia) Hk) as Hlook.
      replace (21 * 0 + k) with k in Hlook by lia.
      rewrite Horder. apply as_completed_middle, Hlook. }
    rewrite Hst', Hsplit.
    apply aggregate_last with (d := d) (hf_energy := hf_energy);
      try assumption; try lia.
    + apply as_completed_Forall, Hall.
    + apply as_completed_Forall, Forall_app. split; apply planned_indexed.
    + apply Forall_forall. intros [k' f'] Hin Hidx. cbn [snd] in Hidx.
      apply as_completed_elem in Hin as [Hk' Hf'].
      destruct (lookup_planned_index _ _ Hf') as [->| ->]; rewrite Hidx in Hk'.
      * exact (Hkpost Hk').
      * apply (Hdisj _ Hpre). right. exact Hk'.
Qed.

(** ** Deep copies *)

Lemma preserved_refl h : preserved h h.
Proof. unfold preserved. apply take_ge. lia. Qed.

Lemma preserved_length h h' : preserved h h' -> length h <= length h'.
Proof.
  unfold preserved. intros H.
  assert (length (take (length h) h') = length h) as Hlen by (rewrite H; done).
  rewrite length_take in Hlen. lia.
Qed.

Lemma preserved_trans h1 h2 h3 :
  preserved h1 h2 -> preserved h2 h3 -> preserved h1 h3.
Proof.
  intros H12 H23. pose proof (preserved_length _ _ H12) as Hlen.
  unfold preserved in *.
  rewrite <- H23 in H12. rewrite take_take in H12.
  rewrite Nat.min_l in H12 by exact Hlen. exact H12.
Qed.

Lemma preserved_insert h h' y o :
  preserved h h' -> length h <= y -> preserved h (<[y := o]> h').
Proof.
  unfold preserved. intros H Hy. rewrite take_insert_ge by exact Hy. exact H.
Qed.

Lemma preserved_lookup h h' l :
  preserved h h' -> l < length h -> h' !! l = h !! l.
Proof.
  unfold preserved. intros H Hl.
  rewrite <- (lookup_take_lt h' (length h) l Hl), H. reflexivity.
Qed.

(** A deep copy leaves every object that exists as it is, and what it
    returns for a dictionary is a new object whose entries are new. *)
Lemma deepcopy_rec_spec fuel v w r w' :
  deepcopy_rec fuel v w = (r, w') ->
  preserved (w_heap w) (w_heap w')
  /\ w_calls w' = w_calls w
  /\ w_futures w' = w_futures w
  /\ forall v', r = inr v' -> fresh_copy (length (w_heap w)) (w_heap w') v'.
Proof.
  assert (forall (x : pyval) (w0 : pyworld) r0 w0',
            (mret x : M pyworld pyval) w0 = (r0, w0') ->
            fresh_copy (length (w_heap w0)) (w_heap w0) x ->
            preserved (w_heap w0) (w_heap w0')
            /\ w_calls w0' = w_calls w0
            /\ w_futures w0' = w_futures w0
            /\ forall v', r0 = inr v' ->
                  fresh_copy (length (w_heap w0)) (w_heap w0') v')
    as Hret.
  { intros x w0 r0 w0' [= <- <-] Hx. split; [apply preserved_refl|].
    split; [reflexivity|]. split; [reflexivity|]. intros v' [= <-]. exact Hx. }
  assert (forall (e : exn) (w0 : pyworld) r0 w0',
            (inl e : exn + pyval, w0) = (r0, w0') ->
            preserved (w_heap w0) (w_heap w0')
            /\ w_calls w0' = w_calls w0
            /\ w_futures w0' = w_futures w0
            /\ forall v', r0 = inr v' ->
                  fresh_copy (length (w_heap w0)) (w_heap w0') v')
    as Hraise.
  { intros e w0 r0 w0' [= <- <-]. split; [apply preserved_refl|].
    split; [reflexivity|]. split; [reflexivity|]. intros v' [= ]. }
  revert v w r w'. induction fuel as [|fuel IH]; intros v w r w' Hrun.
  - destruct v as [s|n|l]; cbn [deepcopy_rec] in Hrun.
    + eapply Hret; [exact Hrun|exact I].
    + eapply Hret; [exact Hrun|exact I].
    + eapply Hraise. exact Hrun.
  - destruct v as [s|n|l]; cbn [deepcopy_rec] in Hrun.
    { eapply Hret; [exact Hrun|exact I]. }
    { eapply Hret; [exact Hrun|exact I]. }
    rewrite bind_run in Hrun. unfold dict_items in Hrun.
    destruct (w_heap w !! l) as [items|] eqn:Hl;
      [|eapply Hraise; exact Hrun].
    rewrite bind_run in Hrun. unfold new_dict in Hrun.
    set (y := length (w_heap w)) in *.
    set (w1 := set_heap (w_heap w ++ [[]]) w) in *.
    assert (copying w y w1) as Hinv.
    { unfold copying, w1. cbn [set_heap w_heap w_calls w_futures].
      split; [apply take_app_length|].
      split; [rewrite length_app; simpl; lia|].
      split; [|done].
      intros k x. unfold entry, y. rewrite lookup_app_r by lia.
      rewrite Nat.sub_diag. simpl. discriminate. }
    clearbody w1. rewrite bind_run in Hrun.
    assert (forall wa ra wb,
              copying w y wa ->
              for_each items
                (fun kv => v' ← deepcopy_rec fuel kv.2;
                           setitem (VRef y) kv.1 v') wa = (ra, wb) ->
              copying w y wb) as Hloop.
    { clear Hl Hrun Hinv w1. clearbody y.
      induction items as [|[k x] items IHitems]; intros wa ra wb Ha Hfor.
      { injection Hfor as _ <-. exact Ha. }
      cbn [for_each] in Hfor. rewrite !bind_run in Hfor. cbn [fst snd] in Hfor.
      destruct (deepcopy_rec fuel x wa) as [r1 w1] eqn:Hcopy.
      destruct (IH x wa r1 w1 Hcopy) as (Hp & Hc & Hf & Hfresh).
      destruct Ha as (Hpa & [Hy1 Hy2] & Hya & Hca & Hfa).
      pose proof (preserved_length _ _ Hp) as Hlen.
      assert (copying w y w1) as Hb.
      { split; [eapply preserved_trans; eauto|].
        split; [lia|]. split; [|split; congruence].
        intros k' x'. unfold entry.
        rewrite (preserved_lookup _ _ _ Hp) by lia. apply Hya. }
      destruct r1 as [e|v']; [injection Hfor as _ <-; exact Hb|].
      specialize (Hfresh v' eq_refl).
      destruct Hb as (Hpb & [_ Hy3] & Hyb & Hcb & Hfb).
      destruct (lookup_lt_is_Some_2 (w_heap w1) y Hy3) as [oy Hoy].
      unfold setitem at 1 in Hfor. rewrite Hoy in Hfor.
      eapply IHitems; [|exact Hfor].
      unfold copying. cbn [set_heap w_heap w_calls w_futures].
      split; [apply preserved_insert; [exact Hpb|lia]|].
      split; [rewrite length_insert; lia|]. split; [|done].
      intros k' x'. rewrite entry_insert_eq by exact Hy3.
      destruct (decide (k = k')) as [<-|Hne].
      - rewrite dict_get_set_eq. intros [= <-].
        destruct v' as [| |l']; try exact I.
        destruct Hfresh as [Hl' _]. simpl. lia.
      - rewrite dict_get_set_ne by exact Hne. intros Hx.
        apply (Hyb k' x'). unfold entry. rewrite Hoy. exact Hx. }
    destruct (for_each items _ w1) as [[e|[]] w2] eqn:Hfor;
      destruct (Hloop _ _ _ Hinv Hfor) as (Hp & [Hy1 Hy2] & Hy & Hc & Hf);
      injection Hrun as <- <-.
    + split; [exact Hp|]. split; [exact Hc|]. split; [exact Hf|].
      intros v' [= ].
    + split; [exact Hp|]. split; [exact Hc|]. split; [exact Hf|].
      intros v' [= <-]. split; [exact Hy1|exact Hy].
Qed.

(** The two assignments of a unit of work, made on a fresh copy, leave
    the first [n] objects as they are. *)
Lemma prepare_preserves n config d algorithm w r w' :
  fresh_copy n (w_heap w) config ->
  prepare config d algorithm w = (r, w') ->
  take n (w_heap w') = take n (w_heap w)
  /\ w_calls w' = w_calls w /\ w_futures w' = w_futures w.
Proof.
  intros Hfresh Hrun. unfold prepare in Hrun. rewrite bind_run in Hrun.
  unfold getitem in Hrun.
  destruct config as [s|z|y]; try (injection Hrun as _ <-; done).
  destruct Hfresh as [Hy Hentries].
  destruct (w_heap w !! y) as [o|] eqn:Ho; [|injection Hrun as _ <-; done].
  destruct (dict_get o "PYSCF") as [pyscf|] eqn:Hp;
    [|injection Hrun as _ <-; done].
  assert (fresh_val n pyscf) as Hpyscf.
  { apply (Hentries "PYSCF"). unfold entry. rewrite Ho. exact Hp. }
  rewrite bind_run in Hrun. unfold setitem at 1 in Hrun.
  destruct pyscf as [s|z|lp]; try (injection Hrun as _ <-; done).
  destruct (w_heap w !! lp) as [op|] eqn:Hop;
    [|injection Hrun as _ <-; done].
  unfold setitem in Hrun. cbn [set_heap w_heap] in Hrun. simpl in Hpyscf.
  destruct (<[lp := _]> (w_heap w) !! y) as [o'|];
    injection Hrun as _ <-; cbn [set_heap w_heap w_calls w_futures].
  - rewrite !take_insert_ge by done. done.
  - rewrite take_insert_ge by done. done.
Qed.

(** A unit of work run on a deep copy of its configuration leaves every
    object that existed before as it was, on any heap. *)
Lemma unit_on_copy_preserves i config d bk algorithm w :
  let rw := (c ← deepcopy config; submit i c d bk algorithm) w in
  preserved (w_heap w) (w_heap rw.2)
  /\ w_futures rw.2 = w_futures w.
Proof.
  cbv zeta. rewrite bind_run. unfold deepcopy.
  destruct (deepcopy_rec recursion_limit config w) as [r w1] eqn:Hcopy.
  destruct (deepcopy_rec_spec _ _ _ _ _ Hcopy) as (Hp & Hc & Hf & Hfresh).
  destruct r as [e|c]; cbn [fst snd] in *; [done|].
  specialize (Hfresh c eq_refl).
  unfold submit. rewrite subrountine_run. cbn [fst snd].
  unfold unit_world. rewrite bind_run.
  destruct (prepare c d algorithm w1) as [r2 w2] eqn:Hprep.
  destruct (prepare_preserves _ _ _ _ _ _ _ Hfresh Hprep) as (Ht & Hc' & Hf').
  assert (preserved (w_heap w) (w_heap w2)) as Hp2.
  { unfold preserved in *. rewrite Ht. exact Hp. }
  destruct r2 as [e|[]]; cbn [fst snd].
  - split; [exact Hp2|congruence].
  - unfold record_call, modify. cbn [fst snd w_heap w_futures].
    split; [exact Hp2|congruence].
Qed.

(** ** The shared dictionary *)

Lemma shared_after n :
  n = 1 \/ n = 2 ->
  let h' := w_heap (world_after n) in
  view h' (qiskit_chemistry_dict g0) = assembled
  /\ Forall (own_copy h' (qiskit_chemistry_dict g0))
            (w_futures (world_after n)).
Proof.
  intros Hn. cbv zeta. rewrite world_after_eq. split.
  - destruct Hn as [-> | ->]; vm_compute; reflexivity.
  - apply (bool_decide_unpack _).
    destruct Hn as [-> | ->]; vm_compute; exact I.
Qed.

(** C4: whatever the schedule and the solver's answers, and whether the
    sweep runs to its end or is left by an exception, the shared
    configuration dictionary reads after the sweep as it read after
    cell 1; every submitted call was given a configuration none of whose
    objects is an object of the shared dictionary; and, on any heap, a
    call submitted with a deep copy of a configuration leaves every
    object that existed before the copy as it was. *)
Theorem C4_shared_configuration_unchanged (order : nat -> list nat) :
  let st' := (notebook order empty_state).2 in
  let h' := w_heap (st_world st') in
  cell1 empty_state = (inr g0, st0)
  /\ view h' (qiskit_chemistry_dict g0)
     = view (w_heap (st_world st0)) (qiskit_chemistry_dict g0)
  /\ Forall (own_copy h' (qiskit_chemistry_dict g0))
            (w_futures (st_world st'))
  /\ (forall (w : pyworld) (config : pyval) i d bk algorithm,
        preserved (w_heap w)
          (w_heap ((c ← deepcopy config; submit i c d bk algorithm) w).2)).
Proof.
  cbv zeta. split; [apply cell1_run|].
  assert (forall A B C : Prop, A /\ B -> C -> A /\ B /\ C) as Hand by tauto.
  apply Hand.
  - destruct (notebook_world order) as [[_ ->]| ->].
    + apply (shared_after 1). left. reflexivity.
    + apply (shared_after 2). right. reflexivity.
  - intros w config i d bk algorithm.
    apply (unit_on_copy_preserves i config d bk algorithm w).
Qed.

(** Without the copy the assignment of the unit of work shows in the
    shared dictionary. *)
Remark shared_dictionary_is_mutable i d bk algorithm :
  view (w_heap (subrountine i (qiskit_chemistry_dict g0) d bk algorithm
                  w0).2)
       (qiskit_chemistry_dict g0)
  <> assembled.
Proof.
  rewrite subrountine_run. vm_compute. intros H. discriminate H.
Qed.

(** ** A unit of work that raises *)

Lemma not_consumed j kfs st k :
  (forall f, (k, f) ∈ kfs -> ~ completed f) ->
  (forall j', (j', k) ∉ st_consumed st) ->
  forall j', (j', k) ∉ st_consumed (aggregate j kfs st).2.
Proof.
  intros Hk Hst j' Hin.
  apply aggregate_consumed in Hin as [Hin|(_ & f & Hf & Hc)].
  - exact (Hst _ Hin).
  - exact (Hk _ Hf Hc).
Qed.

Lemma raised_not_completed f e : f_outcome f = inl e -> ~ completed f.
Proof. intros H [r Hr]. rewrite H in Hr. discriminate Hr. Qed.

(** C6: let the solver raise [e] inside the unit of algorithm [j] and
    step [i].  The future of that unit holds [e]; [future.result()] on it
    raises [e] in the driver and leaves the driver's state as it is; the
    aggregation loop is left with [e] at that future, nothing written;
    and the notebook as a whole ends with an exception raised by one of
    its units, without ever having consumed that unit. *)
Theorem C6_exception_leaves_the_loop
    (order : nat -> list nat) (j i : nat) (e : exn) :
  valid_order order ->
  j < 2 -> i <= 20 ->
  solver_run (21 * j + i) (unit_tree j i) (backend_of j) = inl e ->
  let k := 21 * j + i in
  exists f,
    w_futures (world_after (S j)) !! k = Some f
    /\ f_outcome f = inl e
    /\ (forall j' st, future_result j' k f st = (inl e, st))
    /\ (forall j' st rest,
          for_each ((k, f) :: rest) (collect j') st = (inl e, st))
    /\ exists e' st',
         notebook order empty_state = (inl e', st')
         /\ (exists f', f' ∈ w_futures (st_world st')
                        /\ f_outcome f' = inl e')
         /\ (forall j', (j', k) ∉ st_consumed st').
Proof.
  intros [Hp0 Hp1] Hj Hi Hsolver k.
  set (f := unit_future j i).
  assert (f_outcome f = inl e) as Hout.
  { unfold f. cbn [unit_future f_outcome]. rewrite Hsolver. reflexivity. }
  assert ((planned 0 ++ planned 1) !! k = Some f) as Hboth.
  { apply lookup_planned_both; lia. }
  exists f. split.
  { both_passes j.
    - rewrite futures_after_1. apply planned_lookup. lia.
    - rewrite futures_after_2. exact Hboth. }
  split; [exact Hout|]. split.
  { intros j' st. unfold future_result. rewrite Hout. reflexivity. }
  split.
  { intros j' st rest. simpl. rewrite bind_run, (collect_raise _ _ _ e _ Hout).
    reflexivity. }
  (* the notebook *)
  assert (forall f', (k, f') ∈ as_completed (planned 0) (order 0) ->
                     ~ completed f') as Hk0.
  { intros f' Hin. apply as_completed_elem in Hin as [_ Hf'].
    assert (k < 21) as Hk.
    { rewrite <- (length_planned 0). eapply lookup_lt_Some, Hf'. }
    rewrite lookup_app_l in Hboth by (rewrite length_planned; exact Hk).
    rewrite Hf' in Hboth. injection Hboth as ->.
    eapply raised_not_completed, Hout. }
  assert (forall f', (k, f') ∈ as_completed (planned 0 ++ planned 1) (order 1)
                     -> ~ completed f') as Hk1.
  { intros f' Hin. apply as_completed_elem in Hin as [_ Hf'].
    rewrite Hf' in Hboth. injection Hboth as ->.
    eapply raised_not_completed, Hout. }
  rewrite notebook_run.
  pose proof (after_pass0_world order) as Hw0.
  pose proof (not_consumed 0 _ (with_world (world_after 1) st0) k Hk0)
    as Hc0.
  fold (after_pass0 order) in Hc0.
  assert (forall j', (j', k) ∉ st_consumed (after_pass0 order).2) as Hc0'.
  { apply Hc0. intros j' Hin. apply elem_of_nil in Hin. exact Hin. }
  clear Hc0.
  destruct (after_pass0 order) as [[e0|[]] s1] eqn:Hpass0;
    cbn [fst snd] in *.
  { exists e0, s1. split; [reflexivity|]. split; [|exact Hc0'].
    destruct (aggregate_inl 0 (as_completed (planned 0) (order 0))
                (with_world (world_after 1) st0) e0)
      as (k0 & f0 & Hin0 & Hf0).
    { fold (after_pass0 order). rewrite Hpass0. reflexivity. }
    exists f0. split; [|exact Hf0].
    rewrite Hw0, futures_after_1.
    apply as_completed_elem in Hin0 as [_ Hin0].
    eapply list_elem_of_lookup_2, Hin0. }
  assert (j = 1) as ->.
  { destruct j as [|[|j]]; [|reflexivity|lia]. exfalso.
    assert (Forall (fun kf => completed kf.2)
                   (as_completed (planned 0) (order 0))) as Hall.
    { eapply (aggregate_inr 0 _ (with_world (world_after 1) st0) tt).
      fold (after_pass0 order). rewrite Hpass0. reflexivity. }
    rewrite Forall_forall in Hall.
    apply (Hk0 f); [|apply (Hall (k, f))];
      apply as_completed_elem; (split; [|apply planned_lookup; lia]);
      rewrite Hp0; apply elem_of_seq; unfold k; lia. }
  pose proof (after_pass1_world order s1) as Hw1.
  pose proof (not_consumed 1 _ (with_world (world_after 2) s1) k Hk1 Hc0')
    as Hc1.
  fold (after_pass1 order s1) in Hc1.
  destruct (after_pass1 order s1) as [[e1|[]] s2] eqn:Hpass1;
    cbn [fst snd] in *.
  - exists e1, s2. split; [reflexivity|]. split; [|exact Hc1].
    destruct (aggregate_inl 1 (as_completed (planned 0 ++ planned 1)
                                 (order 1))
                (with_world (world_after 2) s1) e1)
      as (k1 & f1 & Hin1 & Hf1).
    { fold (after_pass1 order s1). rewrite Hpass1. reflexivity. }
    exists f1. split; [|exact Hf1].
    rewrite Hw1, futures_after_2.
    apply as_completed_elem in Hin1 as [_ Hin1].
    eapply list_elem_of_lookup_2, Hin1.
  - exfalso.
    assert (Forall (fun kf => completed kf.2)
                   (as_completed (planned 0 ++ planned 1) (order 1)))
      as Hall.
    { eapply (aggregate_inr 1 _ (with_world (world_after 2) s1) tt).
      fold (after_pass1 order s1). rewrite Hpass1. reflexivity. }
    rewrite Forall_forall in Hall.
    apply (Hk1 f); [|apply (Hall (k, f))];
      apply as_completed_elem; (split; [|exact Hboth]);
      rewrite Hp1; apply elem_of_seq; unfold k; lia.
Qed.

(** ** The difference plot *)

Lemma np_subtract_lookup a b i x y :
  a !! i = Some (Some x) -> b !! i = Some (Some y) ->
  np_subtract a b !! i = Some (Some (x - y)%Q).
Proof.
  intros Ha Hb. unfold np_subtract. rewrite lookup_zip_with, Ha. simpl.
  rewrite Hb. reflexivity.
Qed.

(** Cell 5 on any state with two rows: two curves over [distances],
    first [hf_energies - energies[1]] labelled Hartree-Fock, then
    [energies[0] - energies[1]] labelled IQPE, the subtraction being
    element by element. *)
Lemma cell5_run (st : state) (e0 e1 : list (option Q)) :
  energies st !! 0 = Some e0 ->
  energies st !! 1 = Some e1 ->
  exists fig,
    cell5 st empty_figure = (inr tt, fig)
    /\ fig_curves fig
       = [Curve (distances st) (np_subtract (hf_energies st) e1)
                "Hartree-Fock";
          Curve (distances st) (np_subtract e0 e1) "IQPE"]
    /\ fig_title fig = "Energy difference from ExactEigensolver"
    /\ (forall i h x y,
          hf_energies st !! i = Some (Some h) ->
          e0 !! i = Some (Some x) -> e1 !! i = Some (Some y) ->
          np_subtract (hf_energies st) e1 !! i = Some (Some (h - y)%Q)
          /\ np_subtract e0 e1 !! i = Some (Some (x - y)%Q))
    /\ tree_path (view heap0 (algorithm_of 0)) ["name"] = Some (TStr "IQPE")
    /\ tree_path (view heap0 (algorithm_of 1)) ["name"]
       = Some (TStr "ExactEigensolver").
Proof.
  intros H0 H1. eexists. split.
  { unfold cell5, list_getitem. rewrite H0, H1. reflexivity. }
  cbn [fig_curves fig_title]. split; [reflexivity|]. split; [reflexivity|].
  split; [|split; reflexivity].
  intros i h x y Hh Hx Hy. split; eapply np_subtract_lookup; eauto.
Qed.

(** * Further properties of the cells *)

(** ** The unit of work on a configuration of the wrong shape *)

(** X1: on a configuration dictionary that has no ['PYSCF'] entry the
    unit of work raises [KeyError('PYSCF')]; where that entry is no
    dictionary it raises [TypeError].  In both cases nothing has been
    assigned and the solver has not been called: the world is as it was. *)
Theorem subrountine_rejects_configuration
    (i : nat) (l : loc) (o : pydict) (d : Q) (bk : backend)
    (algorithm : pyval) (w : pyworld) :
  w_heap w !! l = Some o ->
  (dict_get o "PYSCF" = None ->
     subrountine i (VRef l) d bk algorithm w = (inl (KeyError "PYSCF"), w))
  /\ (forall x, dict_get o "PYSCF" = Some x ->
        (forall lp, x <> VRef lp) ->
        subrountine i (VRef l) d bk algorithm w = (inl TypeError, w)).
Proof.
  intros Ho. split.
  - intros Hnone. unfold subrountine. rewrite bind_run. unfold getitem.
    rewrite Ho, Hnone. reflexivity.
  - intros x Hx Hnoref. unfold subrountine. rewrite bind_run.
    unfold getitem. rewrite Ho, Hx, bind_run.
    destruct x as [s|n|lp]; [reflexivity|reflexivity|].
    exfalso. exact (Hnoref lp eq_refl).
Qed.

(** X2: once the two entries are assigned and the solver has been called,
    an exception of the solver is the exception of the unit of work, and a
    result dictionary without ['energy'], or with ['energy'] but without
    ['hf_energy'], makes the unit raise [KeyError] for that key.  In each
    case the configuration keeps the geometry and the algorithm it was
    given and the call of the solver has taken place. *)
Theorem subrountine_raises_after_the_call
    (i : nat) (l lp : loc) (d : Q) (bk : backend) (algorithm : pyval)
    (w : pyworld) :
  let run := subrountine i (VRef l) d bk algorithm w in
  let h' := w_heap run.2 in
  let answer := solver_run (length (w_calls w)) (view h' (VRef l)) bk in
  entry (w_heap w) l "PYSCF" = Some (VRef lp) ->
  lp < length (w_heap w) ->
  (forall e, answer = inl e -> run.1 = inl e)
  /\ (forall result,
        answer = inr result -> dict_get result "energy" = None ->
        run.1 = inl (KeyError "energy"))
  /\ (forall result energy,
        answer = inr result -> dict_get result "energy" = Some energy ->
        dict_get result "hf_energy" = None ->
        run.1 = inl (KeyError "hf_energy"))
  /\ length (w_calls run.2) = S (length (w_calls w))
  /\ entry h' lp "atom" = Some (VStr (format molecule (float_str (d / 2))))
  /\ entry h' l "algorithm" = Some algorithm.
Proof.
  intros run h' answer Hl Hlp.
  destruct (prepare_run l lp d algorithm w Hl Hlp)
    as (h1 & Hprep & _ & Hatom & Halg & _).
  pose proof (subrountine_prepared i l d bk algorithm w h1 Hprep) as Hrun.
  subst answer h' run. rewrite Hrun. cbn [fst snd w_heap w_calls].
  split; [|split; [|split; [|split; [|split]]]].
  - intros e He. rewrite He. reflexivity.
  - intros result Hres Hnone. rewrite Hres. cbn [unit_result].
    rewrite Hnone. reflexivity.
  - intros result energy Hres Hen Hnone. rewrite Hres. cbn [unit_result].
    rewrite Hen, Hnone. reflexivity.
  - rewrite length_app. simpl. lia.
  - exact Hatom.
  - exact Halg.
Qed.

(** ** One configuration used for two units in a row *)

Lemma dict_set_set {A} (o : list (string * A)) k v v' :
  dict_set (dict_set o k v) k v' = dict_set o k v'.
Proof.
  induction o as [|[k0 v0] o IH]; simpl.
  - rewrite String.eqb_refl. reflexivity.
  - destruct (String.eqb k0 k) eqn:E; simpl; rewrite E; [reflexivity|].
    rewrite IH. reflexivity.
Qed.

Lemma dict_set_between {A} (o : list (string * A)) k k' v v' v'' :
  k <> k' ->
  dict_set (dict_set (dict_set o k v) k' v') k v''
  = dict_set (dict_set o k v'') k' v'.
Proof.
  intros Hne.
  assert (String.eqb k k' = false) as Hkk' by (apply String.eqb_neq, Hne).
  induction o as [|[k0 v0] o IH]; simpl.
  - rewrite Hkk'. simpl. rewrite String.eqb_refl. reflexivity.
  - destruct (String.eqb k0 k) eqn:E; simpl.
    + apply String.eqb_eq in E as ->. rewrite Hkk'. simpl.
      rewrite String.eqb_refl. reflexivity.
    + destruct (String.eqb k0 k') eqn:E'; simpl; rewrite E.
      * rewrite dict_set_set. reflexivity.
      * rewrite IH. reflexivity.
Qed.

Lemma setitem_alter l k x w :
  l < length (w_heap w) ->
  setitem (VRef l) k x w
  = (inr tt, set_heap (alter (fun o => dict_set o k x) l (w_heap w)) w).
Proof.
  intros Hl. destruct (lookup_lt_is_Some_2 _ _ Hl) as [o Ho].
  unfold setitem. rewrite Ho. do 2 f_equal.
  apply list_eq. intros j. destruct (decide (j = l)) as [->|Hne].
  - rewrite list_lookup_insert_eq by done.
    rewrite list_lookup_alter_eq, Ho. reflexivity.
  - rewrite list_lookup_insert_ne, list_lookup_alter_ne by done. reflexivity.
Qed.

(** The heap the two assignments of the unit of work leave. *)
Lemma prepare_heap l lp d algorithm w :
  entry (w_heap w) l "PYSCF" = Some (VRef lp) ->
  lp < length (w_heap w) ->
  prepare (VRef l) d algorithm w
  = (inr tt,
     set_heap
       (alter (fun o => dict_set o "algorithm" algorithm) l
          (alter (fun o => dict_set o "atom"
                             (VStr (format molecule (float_str (d / 2)))))
                 lp (w_heap w)))
       w).
Proof.
  intros Hl Hlp. unfold entry in Hl.
  destruct (w_heap w !! l) as [o|] eqn:Ho; [|done]. simpl in Hl.
  assert (l < length (w_heap w)) as Hllen by (eapply lookup_lt_Some, Ho).
  unfold prepare. rewrite bind_run. unfold getitem. rewrite Ho, Hl.
  rewrite bind_run, setitem_alter by exact Hlp.
  rewrite setitem_alter by (cbn [set_heap w_heap]; rewrite length_alter; exact Hllen).
  reflexivity.
Qed.

(** X3: a configuration used for a second unit of work ends as if only
    the second unit had been run on it: the second call overwrites the
    geometry and the algorithm the first call left, object by object, and
    hands the solver the same configuration.  The solver has then been
    called twice. *)
Theorem subrountine_overwrites_previous_unit
    (i1 i2 : nat) (l lp : loc) (d1 d2 : Q) (bk1 bk2 : backend)
    (algorithm1 algorithm2 : pyval) (w : pyworld) :
  let w1 := (subrountine i1 (VRef l) d1 bk1 algorithm1 w).2 in
  let w12 := (subrountine i2 (VRef l) d2 bk2 algorithm2 w1).2 in
  let w2 := (subrountine i2 (VRef l) d2 bk2 algorithm2 w).2 in
  entry (w_heap w) l "PYSCF" = Some (VRef lp) ->
  lp < length (w_heap w) ->
  w_heap w12 = w_heap w2
  /\ last (w_calls w12) = last (w_calls w2)
  /\ length (w_calls w12) = 2 + length (w_calls w).
Proof.
  intros w1 w12 w2 Hl Hlp.
  pose proof (prepare_heap l lp d1 algorithm1 w Hl Hlp) as Hp1.
  pose proof (prepare_heap l lp d2 algorithm2 w Hl Hlp) as Hp2.
  pose proof (subrountine_prepared i1 l d1 bk1 algorithm1 w _ Hp1) as Hr1.
  pose proof (subrountine_prepared i2 l d2 bk2 algorithm2 w _ Hp2) as Hr2.
  set (s1 := VStr (format molecule (float_str (d1 / 2)))) in *.
  set (s2 := VStr (format molecule (float_str (d2 / 2)))) in *.
  set (h1 := alter (fun o => dict_set o "algorithm" algorithm1) l
               (alter (fun o => dict_set o "atom" s1) lp (w_heap w))) in *.
  assert (w_heap w1 = h1) as Hw1 by (unfold w1; rewrite Hr1; reflexivity).
  assert (entry (w_heap w1) l "PYSCF" = Some (VRef lp)) as Hl1.
  { destruct (prepare_run l lp d1 algorithm1 w Hl Hlp)
      as (h' & Hprep & _ & _ & _ & Hframe & _).
    rewrite Hp1 in Hprep. injection Hprep as Hh'.
    rewrite Hw1, Hh', Hframe by (intros [= ]; done). exact Hl. }
  assert (lp < length (w_heap w1)) as Hlp1.
  { rewrite Hw1. unfold h1. rewrite !length_alter. exact Hlp. }
  pose proof (prepare_heap l lp d2 algorithm2 w1 Hl1 Hlp1) as Hp12.
  pose proof (subrountine_prepared i2 l d2 bk2 algorithm2 w1 _ Hp12) as Hr12.
  fold s2 in Hr12.
  assert (alter (fun o => dict_set o "algorithm" algorithm2) l
            (alter (fun o => dict_set o "atom" s2) lp (w_heap w1))
          = alter (fun o => dict_set o "algorithm" algorithm2) l
              (alter (fun o => dict_set o "atom" s2) lp (w_heap w))) as Heq.
  { rewrite Hw1. unfold h1. clear. apply list_eq. intros x.
    destruct (decide (x = l)) as [->|Hxl].
    - destruct (decide (lp = l)) as [->|Hne];
        repeat first [rewrite list_lookup_alter_eq
                     |rewrite list_lookup_alter_ne by done];
        (destruct (w_heap w !! l) as [o|]; [|reflexivity]); simpl; f_equal.
      + rewrite (dict_set_between o "atom" "algorithm") by done.
        apply dict_set_set.
      + apply dict_set_set.
    - destruct (decide (x = lp)) as [->|Hne];
        repeat first [rewrite list_lookup_alter_eq
                     |rewrite list_lookup_alter_ne by done];
        [|reflexivity].
      destruct (w_heap w !! lp) as [o|]; [|reflexivity]. simpl. f_equal.
      apply dict_set_set. }
  unfold w12, w2. rewrite Hr12, Hr2. cbn [snd w_heap w_calls].
  rewrite Heq. split; [reflexivity|]. split.
  - rewrite !last_snoc. reflexivity.
  - rewrite length_app. unfold w1. rewrite Hr1. cbn [snd w_calls].
    rewrite length_app. simpl. lia.
Qed.

(** ** The energy plot *)

Lemma zip_with_nil_r {A B C} (f : A -> B -> C) (xs : list A) :
  zip_with f xs [] = [].
Proof. destruct xs; reflexivity. Qed.

(** The loop of cell 4 from position [a] on: one curve for every
    remaining algorithm, row and name read at the same position. *)
Lemma cell4_loop g st algs names :
  Forall2 (fun alg name => (getitem alg "name" (st_world st)).1 = inr name)
          algs names ->
  forall rows a ax,
    length algs <= length rows ->
    (forall j, j < length algs ->
       algorithms g !! (a + j) = algs !! j
       /\ energies st !! (a + j) = rows !! j) ->
    for_each (seq a (length algs)) (fun j =>
      row ← list_getitem (energies st) j;
      algorithm ← list_getitem (algorithms g) j;
      name ← reading (st_world st) (getitem algorithm "name");
      ax_plot (distances st) row name) ax
    = (inr tt,
       Axes (ax_plots ax
             ++ zip_with (fun row name => Plot (distances st) row name)
                         rows names)
            (ax_xlabel ax) (ax_ylabel ax) (ax_title ax) (ax_legend ax)).
Proof.
  induction 1 as [|alg name algs names Hname _ IH]; intros rows a ax Hlen Hat.
  - simpl. rewrite zip_with_nil_r, app_nil_r. destruct ax. reflexivity.
  - destruct rows as [|row rows]; [simpl in Hlen; lia|].
    destruct (Hat 0 ltac:(simpl; lia)) as [Halg Hrow].
    rewrite Nat.add_0_r in Halg, Hrow. simpl in Halg, Hrow.
    cbn [length seq for_each]. rewrite bind_run.
    rewrite bind_run. unfold list_getitem at 1. rewrite Hrow, ret_run.
    rewrite bind_run. unfold list_getitem at 1. rewrite Halg, ret_run.
    rewrite bind_run. unfold reading at 1. rewrite Hname.
    unfold ax_plot at 1, modify at 1.
    rewrite (IH rows (S a)).
    + cbn [ax_plots ax_xlabel ax_ylabel ax_title ax_legend zip_with].
      rewrite <- app_assoc. reflexivity.
    + simpl in Hlen. lia.
    + intros j Hj. destruct (Hat (S j) ltac:(simpl; lia)) as [Ha Hr].
      rewrite Nat.add_succ_r in Ha, Hr. simpl in Ha, Hr. split; assumption.
Qed.

(** Cell 4 on any algorithm table whose entries have a name and any
    array with a row for each of them. *)
Lemma cell4_run g st names :
  length (algorithms g) <= length (energies st) ->
  Forall2 (fun alg name => (getitem alg "name" (st_world st)).1 = inr name)
          (algorithms g) names ->
  cell4 g st empty_axes
  = (inr tt,
     Axes (Plot (distances st) (hf_energies st) (VStr "Hartree-Fock")
           :: zip_with (fun row name => Plot (distances st) row name)
                       (energies st) names)
          "Interatomic distance" "Energy" "H2 Ground State Energy"
          (Some "upper right")).
Proof.
  intros Hlen Hnames. unfold cell4. rewrite bind_run.
  unfold ax_plot at 1, modify at 1. rewrite bind_run.
  rewrite (cell4_loop g st _ _ Hnames (energies st) 0);
    [reflexivity|exact Hlen|].
  intros j _. split; reflexivity.
Qed.

(** The names of the algorithm table, read after any number of passes. *)
Lemma algorithm_name_after n :
  n <= 2 ->
  Forall2 (fun alg name => (getitem alg "name" (world_after n)).1 = inr name)
          (algorithms g0) [VStr "IQPE"; VStr "ExactEigensolver"].
Proof.
  intros Hn. rewrite world_after_eq.
  destruct n as [|[|[|n]]]; [| | |lia];
    repeat constructor; vm_compute; reflexivity.
Qed.

(** X4: whatever the schedule and whatever the solver answers, and also
    when the sweep was left by an exception, cell 4 run on the state the
    sweep leaves raises nothing and draws three curves over [distances]:
    [hf_energies] labelled Hartree-Fock, then row 0 of [energies] labelled
    with the name of the first algorithm, IQPE, and row 1 labelled with
    the name of the second, ExactEigensolver, under the title
    H2 Ground State Energy. *)
Theorem energy_plot_after_sweep (order : nat -> list nat) :
  let st' := (notebook order empty_state).2 in
  exists e0 e1,
    energies st' = [e0; e1]
    /\ cell4 g0 st' empty_axes
       = (inr tt,
          Axes [Plot (distances st') (hf_energies st') (VStr "Hartree-Fock");
                Plot (distances st') e0 (VStr "IQPE");
                Plot (distances st') e1 (VStr "ExactEigensolver")]
               "Interatomic distance" "Energy" "H2 Ground State Energy"
               (Some "upper right")).
Proof.
  intros st'.
  assert (shaped st' /\ exists n, n <= 2 /\ st_world st' = world_after n)
    as [Hshaped (n & Hn & Hworld)].
  { unfold st'. rewrite notebook_run.
    pose proof (after_pass0_shaped order) as Hs0.
    pose proof (after_pass0_world order) as Hw0.
    destruct (after_pass0 order) as [[e|[]] s1]; cbn [fst snd] in *.
    { split; [exact Hs0|]. exists 1. split; [lia|exact Hw0]. }
    pose proof (after_pass1_world order s1) as Hw1.
    assert (shaped (after_pass1 order s1).2) as Hs1.
    { unfold after_pass1. apply aggregate_shaped. exact Hs0. }
    destruct (after_pass1 order s1) as [[e|[]] s2]; cbn [fst snd] in *;
      (split; [exact Hs1|]); exists 2; (split; [lia|exact Hw1]). }
  destruct Hshaped as (Hrows & _).
  destruct (energies st') as [|e0 [|e1 [|e2 rest]]] eqn:Hen;
    try (simpl in Hrows; lia).
  exists e0, e1. split; [reflexivity|].
  rewrite (cell4_run g0 st' [VStr "IQPE"; VStr "ExactEigensolver"]).
  - rewrite Hen. reflexivity.
  - rewrite Hen. simpl. lia.
  - rewrite Hworld. apply algorithm_name_after, Hn.
Qed.

(** X5: the difference cell reads rows 0 and 1 of [energies] whatever the
    length of the algorithm table: on an array of fewer than two rows it
    raises [IndexError] at its first statement and nothing is drawn; on
    any array of two rows or more it raises nothing and adds two curves
    to the figure. *)
Theorem difference_plot_needs_two_rows (st : state) (fig : figure) :
  (length (energies st) < 2 -> cell5 st fig = (inl IndexError, fig))
  /\ (2 <= length (energies st) ->
      (cell5 st fig).1 = inr tt
      /\ length (fig_curves (cell5 st fig).2) = 2 + length (fig_curves fig)).
Proof.
  split.
  - intros Hlen. unfold cell5. rewrite bind_run. unfold list_getitem at 1.
    rewrite (lookup_ge_None_2 (energies st) 1) by lia. reflexivity.
  - intros Hlen.
    destruct (lookup_lt_is_Some_2 (energies st) 0 ltac:(lia)) as [e0 H0].
    destruct (lookup_lt_is_Some_2 (energies st) 1 ltac:(lia)) as [e1 H1].
    assert (cell5 st fig
            = (inr tt,
               Figure ((fig_curves fig
                        ++ [Curve (distances st)
                              (np_subtract (hf_energies st) e1)
                              "Hartree-Fock"])
                       ++ [Curve (distances st) (np_subtract e0 e1) "IQPE"])
                      "Interatomic distance" "Energy"
                      "Energy difference from ExactEigensolver"
                      (Some "upper right"))) as ->.
    { unfold cell5, list_getitem. rewrite H0, H1. reflexivity. }
    cbn [fst snd fig_curves]. split; [reflexivity|].
    rewrite !length_app. simpl. lia.
Qed.

(** ** What the arrays hold after a sweep *)

Lemma insert_cell_inv (P : nat -> Q -> Prop) (a : list (option Q)) i0 v :
  P i0 v ->
  (forall i x, a !! i = Some (Some x) -> P i x) ->
  forall i x, <[i0 := Some v]> a !! i = Some (Some x) -> P i x.
Proof.
  intros Hv Ha i x Hx. destruct (decide (i = i0)) as [->|Hne].
  - destruct (decide (i0 < length a)) as [Hlt|Hge].
    + rewrite list_lookup_insert_eq in Hx by done. injection Hx as <-. done.
    + rewrite list_insert_ge in Hx by lia. eauto.
  - rewrite list_lookup_insert_ne in Hx by done. eauto.
Qed.

(** No cell of a new array has been assigned. *)
Lemma np_empty_unassigned n i x : np_empty n !! i = Some (Some x) -> False.
Proof.
  unfold np_empty. intros H. apply lookup_replicate in H as [H _].
  discriminate H.
Qed.

(** The aggregation loop of pass [j] keeps a property of the assigned
    cells of row [j], of [hf_energies] and of [distances] that every
    returned tuple has. *)
Lemma aggregate_invariants (Pe Ph Pd : nat -> Q -> Prop) j kfs :
  Forall (fun kf => forall i d energy hf_energy,
            f_outcome kf.2 = inr (i, d, energy, hf_energy) ->
            Pe i energy /\ Ph i hf_energy /\ Pd i d) kfs ->
  forall st,
    (forall i x, cell2 (energies st) j i = Some (Some x) -> Pe i x) ->
    (forall i x, hf_energies st !! i = Some (Some x) -> Ph i x) ->
    (forall i x, distances st !! i = Some (Some x) -> Pd i x) ->
    let st' := (aggregate j kfs st).2 in
    (forall i x, cell2 (energies st') j i = Some (Some x) -> Pe i x)
    /\ (forall i x, hf_energies st' !! i = Some (Some x) -> Ph i x)
    /\ (forall i x, distances st' !! i = Some (Some x) -> Pd i x).
Proof.
  induction 1 as [|[k f] kfs Hf _ IH]; intros st He Hh Hd; [done|].
  cbn [aggregate]. cbn [snd] in Hf.
  destruct (f_outcome f) as [e|[[[i0 d] energy] hf_energy]] eqn:Hout;
    [done|].
  destruct (Hf _ _ _ _ eq_refl) as (Hpe & Hph & Hpd).
  apply IH; cbn [written energies hf_energies distances].
  - intros i x. unfold cell2. rewrite list_lookup_alter_eq.
    destruct (energies st !! j) as [row|] eqn:Hrow; [|done]. simpl.
    apply insert_cell_inv; [exact Hpe|].
    intros i' x' Hx'. apply He. unfold cell2. rewrite Hrow. exact Hx'.
  - apply insert_cell_inv; assumption.
  - apply insert_cell_inv; assumption.
Qed.

(** The aggregation loop of pass [j] leaves the other rows alone. *)
Lemma aggregate_other_row j kfs st j0 :
  j0 <> j -> energies (aggregate j kfs st).2 !! j0 = energies st !! j0.
Proof.
  intros Hne. revert st.
  induction kfs as [|[k f] kfs IH]; intros st; [done|].
  cbn [aggregate].
  destruct (f_outcome f) as [e|[[[i0 d] energy] hf_energy]]; [done|].
  rewrite IH. cbn [written energies].
  apply list_lookup_alter_ne. done.
Qed.

(** The state any run of the notebook leaves. *)
Lemma notebook_state order :
  let st' := (notebook order empty_state).2 in
  st' = (after_pass0 order).2
  \/ st' = (after_pass1 order (after_pass0 order).2).2.
Proof.
  cbv zeta. rewrite notebook_run.
  destruct (after_pass0 order) as [[e|[]] s1]; cbn [snd]; [left; done|].
  right. destruct (after_pass1 order s1) as [[e|[]] s2]; done.
Qed.

(** What a future of the sweep returns, if it returns. *)
Lemma planned_returns j f i d energy hf_energy :
  f ∈ planned j ->
  f_outcome f = inr (i, d, energy, hf_energy) ->
  i < 21 /\ d = distance i /\ f_outcome (unit_future j i)
                              = inr (i, d, energy, hf_energy).
Proof.
  intros Hin Hout. apply planned_elem in Hin as (i0 & Hi0 & ->).
  pose proof Hout as Hout'. cbn [unit_future f_outcome] in Hout'.
  apply unit_result_inr in Hout' as [-> ->]. done.
Qed.

(** What the assigned cells hold when the first aggregation loop is
    left, and when the second is. *)
Lemma passes_return_values order :
  returned_values (after_pass0 order).2
  /\ returned_values (after_pass1 order (after_pass0 order).2).2.
Proof.
  set (Pe0 := fun i x => exists d hf_energy,
                f_outcome (unit_future 0 i) = inr (i, d, x, hf_energy)).
  set (Pe1 := fun i x => exists j d hf_energy,
                j < 2 /\ f_outcome (unit_future j i)
                         = inr (i, d, x, hf_energy)).
  set (Ph := fun i x => exists j d energy,
               j < 2 /\ f_outcome (unit_future j i) = inr (i, d, energy, x)).
  set (Pd := fun i x => x = distance i).
  (* the first loop *)
  destruct (aggregate_invariants Pe0 Ph Pd 0
              (as_completed (planned 0) (order 0)))
    with (st := with_world (world_after 1) st0) as (He0 & Hh0 & Hd0).
  { apply (as_completed_Forall
             (fun f => forall i d energy hf_energy,
                f_outcome f = inr (i, d, energy, hf_energy) ->
                Pe0 i energy /\ Ph i hf_energy /\ Pd i d)).
    apply Forall_forall. intros f Hin i0 d energy hf_energy Hout.
    destruct (planned_returns 0 f _ _ _ _ Hin Hout) as (_ & -> & Hunit).
    split; [eexists _, _; exact Hunit|].
    split; [exists 0; eexists _, _; split; [lia|exact Hunit]|reflexivity]. }
  { intros i0 x0 Hx. exfalso.
    change (np_empty 21 !! i0 = Some (Some x0)) in Hx.
    exact (np_empty_unassigned _ _ _ Hx). }
  { intros i0 x0 Hx. exfalso. exact (np_empty_unassigned 21 _ _ Hx). }
  { intros i0 x0 Hx. exfalso. exact (np_empty_unassigned 21 _ _ Hx). }
  fold (after_pass0 order) in He0, Hh0, Hd0.
  (* the second loop *)
  assert (forall i x, cell2 (energies (after_pass0 order).2) 1 i
                      = Some (Some x) -> Pe1 i x) as He01.
  { intros i0 x0 Hx. exfalso. unfold cell2, after_pass0 in Hx.
    rewrite aggregate_other_row in Hx by lia.
    change (np_empty 21 !! i0 = Some (Some x0)) in Hx.
    exact (np_empty_unassigned _ _ _ Hx). }
  destruct (aggregate_invariants Pe1 Ph Pd 1
              (as_completed (planned 0 ++ planned 1) (order 1)))
    with (st := with_world (world_after 2) (after_pass0 order).2)
    as (He1 & Hh1 & Hd1).
  { apply (as_completed_Forall
             (fun f => forall i d energy hf_energy,
                f_outcome f = inr (i, d, energy, hf_energy) ->
                Pe1 i energy /\ Ph i hf_energy /\ Pd i d)).
    apply Forall_forall. intros f Hin i0 d energy hf_energy Hout.
    assert (exists j, j < 2 /\ f ∈ planned j) as (j & Hj & Hinj).
    { apply elem_of_app in Hin as [Hin|Hin]; [exists 0|exists 1];
        (split; [lia|exact Hin]). }
    destruct (planned_returns j f _ _ _ _ Hinj Hout) as (_ & -> & Hunit).
    split; [exists j; eexists _, _; split; [exact Hj|exact Hunit]|].
    split; [exists j; eexists _, _; split; [exact Hj|exact Hunit]
           |reflexivity]. }
  { exact He01. }
  { exact Hh0. }
  { exact Hd0. }
  fold (after_pass1 order (after_pass0 order).2) in He1, Hh1, Hd1.
  assert (forall i x,
            cell2 (energies (after_pass1 order (after_pass0 order).2).2) 0 i
            = Some (Some x) -> Pe0 i x) as He10.
  { intros i0 x0 Hx. apply He0. unfold cell2 in *. unfold after_pass1 in Hx.
    rewrite aggregate_other_row in Hx by lia. exact Hx. }
  split; intros i x.
  - split; [apply Hd0|]. split; [apply He0|]. split; [apply He01|apply Hh0].
  - split; [apply Hd1|]. split; [apply He10|]. split; [apply He1|apply Hh1].
Qed.

(** X6: whatever the schedule and the solver, and also when an exception
    ends the sweep, a cell that has been assigned holds what a unit of
    work of that very step returned: [distances[i]] holds the distance of
    step [i]; [energies[0][i]] holds the energy returned by the unit of
    the first algorithm for step [i], never one of the second algorithm;
    [energies[1][i]] and [hf_energies[i]] hold the energy, respectively
    the Hartree-Fock energy, returned by the unit of one of the two
    algorithms for step [i]. *)
Theorem assigned_cells_hold_returned_values
    (order : nat -> list nat) (i : nat) (x : Q) :
  let st' := (notebook order empty_state).2 in
  (distances st' !! i = Some (Some x) -> x = distance i)
  /\ (cell2 (energies st') 0 i = Some (Some x) ->
      exists d hf_energy,
        f_outcome (unit_future 0 i) = inr (i, d, x, hf_energy))
  /\ (cell2 (energies st') 1 i = Some (Some x) ->
      exists j d hf_energy,
        j < 2 /\ f_outcome (unit_future j i) = inr (i, d, x, hf_energy))
  /\ (hf_energies st' !! i = Some (Some x) ->
      exists j d energy,
        j < 2 /\ f_outcome (unit_future j i) = inr (i, d, energy, x)).
Proof.
  intros st'.
  destruct (passes_return_values order) as [Hfirst Hsecond].
  destruct (notebook_state order) as [Hst|Hst]; fold st' in Hst;
    rewrite Hst.
  - exact (Hfirst i x).
  - exact (Hsecond i x).
Qed.

(** X7: when every unit of work returns, then for every schedule the
    sweep ends with [distances] holding the distances of the 21 steps in
    order, and with row 0 of [energies] holding, at every step, the
    energy the unit of the first algorithm returned for that step. *)
Theorem completed_sweep_distances_and_first_row (order : nat -> list nat) :
  valid_order order ->
  Forall completed (w_futures (world_after 2)) ->
  exists st',
    notebook order empty_state = (inr tt, st')
    /\ distances st' = (fun i => Some (distance i)) <$> seq 0 21
    /\ (forall i, i <= 20 ->
          exists d energy hf_energy,
            f_outcome (unit_future 0 i) = inr (i, d, energy, hf_energy)
            /\ cell2 (energies st') 0 i = Some (Some energy)).
Proof.
  intros Hvalid Hall.
  destruct (notebook_completed order Hvalid Hall)
    as (st' & Hrun & (_ & _ & _ & Hlen) & _ & Hassigned & _).
  assert (returned_values st') as Hvalues.
  { destruct (passes_return_values order) as [Hfirst Hsecond].
    destruct (notebook_state order) as [Hst|Hst]; rewrite Hrun in Hst;
      cbn [snd] in Hst; rewrite Hst; assumption. }
  exists st'. split; [exact Hrun|]. split.
  - apply list_eq. intros i. rewrite list_lookup_fmap.
    destruct (decide (i < 21)) as [Hlt|Hge].
    + rewrite lookup_seq_lt by exact Hlt. simpl.
      destruct (Hassigned i ltac:(lia)) as ([x Hx] & _).
      rewrite Hx. do 2 f_equal.
      exact (proj1 (Hvalues i x) Hx).
    + rewrite (lookup_ge_None_2 (seq 0 21)) by (rewrite length_seq; lia).
      apply lookup_ge_None_2. lia.
  - intros i Hi.
    destruct (Hassigned i Hi) as (_ & _ & (row & Hrow & x & Hx) & _).
    assert (cell2 (energies st') 0 i = Some (Some x)) as Hcell.
    { unfold cell2. rewrite Hrow. exact Hx. }
    destruct (proj1 (proj2 (Hvalues i x)) Hcell)
      as (d & hf_energy & Hout).
    exists d, x, hf_energy. split; [exact Hout|exact Hcell].
Qed.

(** X8: when every unit of work returns and the second loop yields the
    future of the second algorithm for step [i] after the future of the
    first algorithm for that step, row 1 of [energies] ends, at step [i],
    with the energy the unit of the second algorithm returned. *)
Theorem second_row_when_second_algorithm_is_last
    (order : nat -> list nat) (i : nat) (pre post : list nat) :
  valid_order order ->
  Forall completed (w_futures (world_after 2)) ->
  i <= 20 ->
  order 1 = pre ++ (21 + i) :: post ->
  i ∈ pre ->
  exists st' d energy hf_energy,
    notebook order empty_state = (inr tt, st')
    /\ f_outcome (unit_future 1 i) = inr (i, d, energy, hf_energy)
    /\ cell2 (energies st') 1 i = Some (Some energy).
Proof.
  intros Hvalid Hall Hi Horder Hpre.
  destruct (notebook_completed order Hvalid Hall)
    as (st' & Hrun & _ & _ & _ & s1 & Hs1 & Hst').
  destruct Hvalid as [Hp0 Hp1]. rewrite futures_after_2 in Hall.
  pose proof (lookup_planned_both 1 i ltac:(lia) ltac:(lia)) as Hlook.
  replace (21 * 1 + i) with (21 + i) in Hlook by lia.
  assert (completed (unit_future 1 i)) as [[[[i' d] energy] hf_energy] Hout].
  { eapply Forall_lookup_1 in Hall; eauto. }
  assert (i' = i) as ->.
  { pose proof Hout as Hout'. cbn [unit_future f_outcome] in Hout'.
    apply unit_result_inr in Hout' as [-> _]. reflexivity. }
  exists st', d, energy, hf_energy.
  split; [exact Hrun|]. split; [exact Hout|].
  assert (NoDup (pre ++ (21 + i) :: post)) as Hnodup.
  { rewrite <- Horder, Hp1. apply NoDup_seq. }
  apply NoDup_app in Hnodup as (_ & Hdisj & Hkpost).
  apply NoDup_cons in Hkpost as [Hkpost _].
  rewrite Hst', Horder, (as_completed_middle _ _ _ _ _ Hlook).
  apply aggregate_last with (d := d) (hf_energy := hf_energy);
    try assumption; try lia.
  - apply as_completed_Forall, Hall.
  - apply as_completed_Forall, Forall_app. split; apply planned_indexed.
  - apply Forall_forall. intros [k' f'] Hin Hidx. cbn [snd] in Hidx.
    apply as_completed_elem in Hin as [Hk' Hf'].
    destruct (lookup_planned_index _ _ Hf') as [->| ->]; rewrite Hidx in Hk'.
    + apply (Hdisj _ Hpre). right. exact Hk'.
    + exact (Hkpost Hk').
Qed.

(** ** The difference plot after a sweep *)

(** In the second loop, the future of the first algorithm for step [k],
    yielded after the future of the second algorithm for that step,
    decides cell [k] of row 1. *)
Lemma second_row_first_algorithm_last
    order k pre post d energy hf_energy s1 :
  order 1 ≡ₚ seq 0 42 ->
  Forall completed (planned 0 ++ planned 1) ->
  shaped s1 ->
  k < 21 ->
  order 1 = pre ++ k :: post ->
  21 + k ∈ pre ->
  f_outcome (unit_future 0 k) = inr (k, d, energy, hf_energy) ->
  cell2 (energies (aggregate 1 (as_completed (planned 0 ++ planned 1)
                                  (order 1)) s1).2) 1 k
  = Some (Some energy).
Proof.
  intros Hp1 Hall Hs1 Hk Horder Hpre Hout.
  assert (NoDup (pre ++ k :: post)) as Hnodup.
  { rewrite <- Horder, Hp1. apply NoDup_seq. }
  apply NoDup_app in Hnodup as (_ & Hdisj & Hkpost).
  apply NoDup_cons in Hkpost as [Hkpost _].
  pose proof (lookup_planned_both 0 k ltac:(lia) Hk) as Hlook.
  replace (21 * 0 + k) with k in Hlook by lia.
  rewrite Horder, (as_completed_middle _ _ _ _ _ Hlook).
  apply aggregate_last with (d := d) (hf_energy := hf_energy);
    try assumption; try lia.
  - apply as_completed_Forall, Hall.
  - apply as_completed_Forall, Forall_app. split; apply planned_indexed.
  - apply Forall_forall. intros [k' f'] Hin Hidx. cbn [snd] in Hidx.
    apply as_completed_elem in Hin as [Hk' Hf'].
    destruct (lookup_planned_index _ _ Hf') as [->| ->]; rewrite Hidx in Hk'.
    + exact (Hkpost Hk').
    + apply (Hdisj _ Hpre). right. exact Hk'.
Qed.

(** C7, as the code has it: after a sweep in which every unit returns,
    the difference cell draws exactly two curves over [distances],
    [hf_energies - energies[1]] labelled Hartree-Fock and
    [energies[0] - energies[1]] labelled IQPE, under the title that names
    the ExactEigensolver.  Row 1 is not always the exact baseline: when
    the second aggregation loop yields the future of the first algorithm
    for step [k] after the future of the second algorithm for that step,
    cell [k] of row 1 holds the energy of the first algorithm; at step
    [k] the curve labelled IQPE is that energy minus itself and the curve
    labelled Hartree-Fock is the Hartree-Fock energy minus that energy,
    whatever the ExactEigensolver returned. *)
Theorem C7_difference_plot_after_sweep
    (order : nat -> list nat) (k : nat) (pre post : list nat)
    (d energy hf_energy : Q) :
  valid_order order ->
  Forall completed (w_futures (world_after 2)) ->
  k < 21 ->
  order 1 = pre ++ k :: post ->
  21 + k ∈ pre ->
  f_outcome (unit_future 0 k) = inr (k, d, energy, hf_energy) ->
  exists st' e0 e1 fig,
    notebook order empty_state = (inr tt, st')
    /\ energies st' = [e0; e1]
    /\ cell5 st' empty_figure = (inr tt, fig)
    /\ fig_curves fig
       = [Curve (distances st') (np_subtract (hf_energies st') e1)
                "Hartree-Fock";
          Curve (distances st') (np_subtract e0 e1) "IQPE"]
    /\ fig_title fig = "Energy difference from ExactEigensolver"
    /\ e0 !! k = Some (Some energy)
    /\ e1 !! k = Some (Some energy)
    /\ np_subtract e0 e1 !! k = Some (Some (energy - energy)%Q)
    /\ (exists hf,
          hf_energies st' !! k = Some (Some hf)
          /\ np_subtract (hf_energies st') e1 !! k
             = Some (Some (hf - energy)%Q)).
Proof.
  intros Hvalid Hall Hk Horder Hpre Hout.
  destruct (notebook_completed order Hvalid Hall)
    as (st' & Hrun & (Hrows & _) & _ & Hassigned & s1 & Hs1 & Hst').
  assert (returned_values st') as Hvalues.
  { destruct (passes_return_values order) as [Hfirst Hsecond].
    destruct (notebook_state order) as [Hst|Hst]; rewrite Hrun in Hst;
      cbn [snd] in Hst; rewrite Hst; assumption. }
  destruct Hvalid as [_ Hp1]. rewrite futures_after_2 in Hall.
  pose proof (second_row_first_algorithm_last order k pre post d energy
                hf_energy s1 Hp1 Hall Hs1 Hk Horder Hpre Hout) as Hcell1.
  rewrite <- Hst' in Hcell1.
  destruct (energies st') as [|e0 [|e1 [|e2 rest]]] eqn:Hen;
    try (simpl in Hrows; lia).
  assert (e1 !! k = Some (Some energy)) as He1 by exact Hcell1.
  assert (e0 !! k = Some (Some energy)) as He0.
  { destruct (Hassigned k ltac:(lia)) as (_ & _ & (row & Hrow & x & Hx) & _).
    injection Hrow as <-.
    destruct (proj1 (proj2 (Hvalues k x))) as (d' & hf' & Hout').
    { unfold cell2. rewrite Hen. exact Hx. }
    rewrite Hout in Hout'. injection Hout' as _ -> _. exact Hx. }
  destruct (cell5_run st' e0 e1) as (fig & Hfig & Hcurves & Htitle & _);
    [rewrite Hen; reflexivity..|].
  exists st', e0, e1, fig.
  split; [exact Hrun|]. split; [exact Hen|]. split; [exact Hfig|].
  split; [exact Hcurves|]. split; [exact Htitle|].
  split; [exact He0|]. split; [exact He1|].
  split; [apply np_subtract_lookup; assumption|].
  destruct (Hassigned k ltac:(lia)) as (_ & [hf Hhf] & _).
  exists hf. split; [exact Hhf|]. apply np_subtract_lookup; assumption.
Qed.

(** ** A failure in the first pass *)

(** X9: when the solver raises inside a unit of the first algorithm, the
    sweep ends in its first aggregation loop: the notebook raises, only
    the 21 units of the first algorithm have been submitted, the solver
    has been called 21 times and only on the simulator backend, no future
    has been consumed by a second loop, and row 1 of [energies] is as
    [np.empty] left it. *)
Theorem failure_in_first_pass_ends_sweep
    (order : nat -> list nat) (i : nat) (e : exn) :
  valid_order order ->
  i <= 20 ->
  solver_run i (unit_tree 0 i) QasmSimulator = inl e ->
  exists e' st',
    notebook order empty_state = (inl e', st')
    /\ w_futures (st_world st') = planned 0
    /\ w_calls (st_world st') = calls_of 0
    /\ length (w_calls (st_world st')) = 21
    /\ Forall (fun c => c.2 = QasmSimulator) (w_calls (st_world st'))
    /\ energies st' !! 1 = Some (np_empty 21)
    /\ (forall k, (1, k) ∉ st_consumed st').
Proof.
  intros [Hp0 _] Hi Hsolver.
  assert (f_outcome (unit_future 0 i) = inl e) as Hout.
  { cbn [unit_future f_outcome]. change (21 * 0 + i) with i.
    change (backend_of 0) with QasmSimulator. rewrite Hsolver. reflexivity. }
  rewrite notebook_run.
  pose proof (after_pass0_world order) as Hw0.
  assert (energies (after_pass0 order).2 !! 1 = Some (np_empty 21)) as Hrow.
  { unfold after_pass0. rewrite aggregate_other_row by lia. reflexivity. }
  assert (forall k, (1, k) ∉ st_consumed (after_pass0 order).2) as Hcons.
  { intros k Hin. unfold after_pass0 in Hin.
    apply aggregate_consumed in Hin as [Hin|[Hin _]]; [|discriminate Hin].
    cbn in Hin. apply elem_of_nil in Hin. exact Hin. }
  destruct (after_pass0 order) as [[e0|[]] s1] eqn:Hpass0;
    cbn [fst snd] in *.
  - exists e0, s1. split; [reflexivity|]. rewrite Hw0.
    split; [apply futures_after_1|]. split; [apply calls_after_1|].
    rewrite calls_after_1. split; [reflexivity|]. split.
    + apply Forall_forall. intros c Hc. unfold calls_of in Hc.
      apply list_elem_of_fmap in Hc as (i0 & -> & _). reflexivity.
    + split; [exact Hrow|exact Hcons].
  - exfalso.
    assert (Forall (fun kf => completed kf.2)
                   (as_completed (planned 0) (order 0))) as Hall.
    { eapply (aggregate_inr 0 _ (with_world (world_after 1) st0) tt).
      fold (after_pass0 order). rewrite Hpass0. reflexivity. }
    rewrite Forall_forall in Hall.
    apply (raised_not_completed _ _ Hout).
    apply (Hall (i, unit_future 0 i)).
    apply as_completed_elem. split; [|apply planned_lookup; lia].
    rewrite Hp0. apply elem_of_seq. lia.
Qed.

(** ** A failure in the second pass *)

(** X12: when the units of the first algorithm all return and the solver
    raises inside a unit of the second algorithm, the notebook raises in
    its second aggregation loop, after all 42 units have been submitted,
    and row 0 of [energies] holds, at every step, the energy the unit of
    the first algorithm returned: the results of the first pass are
    complete when the exception leaves the sweep. *)
Theorem failure_in_second_pass_keeps_first_row
    (order : nat -> list nat) (i : nat) (e : exn) :
  valid_order order ->
  Forall completed (planned 0) ->
  i <= 20 ->
  solver_run (21 + i) (unit_tree 1 i) NoBackend = inl e ->
  exists e' st',
    notebook order empty_state = (inl e', st')
    /\ length (w_futures (st_world st')) = 42
    /\ (forall i0, i0 <= 20 ->
          exists d energy hf_energy,
            f_outcome (unit_future 0 i0) = inr (i0, d, energy, hf_energy)
            /\ cell2 (energies st') 0 i0 = Some (Some energy)).
Proof.
  intros [Hp0 Hp1] Hall0 Hi Hsolver.
  assert (f_outcome (unit_future 1 i) = inl e) as Hout.
  { cbn [unit_future f_outcome]. change (21 * 1 + i) with (21 + i).
    change (backend_of 1) with NoBackend. rewrite Hsolver. reflexivity. }
  destruct (passes_return_values order) as [Hvalues _].
  rewrite notebook_run.
  destruct (pass_completed 0 (planned 0) (order 0) 21
              (with_world (world_after 1) st0))
    as (Hres0 & Hsh0 & _ & Has0);
    [lia|apply shaped_st0|exact Hp0|apply length_planned
    |apply planned_indexed|exact Hall0|].
  fold (after_pass0 order) in Hres0, Hsh0, Has0.
  destruct (after_pass0 order) as [[e0|[]] s1]; cbn [fst snd] in *;
    [discriminate Hres0|].
  pose proof (after_pass1_world order s1) as Hw1.
  assert (forall i0, cell2 (energies (after_pass1 order s1).2) 0 i0
                     = cell2 (energies s1) 0 i0) as Hrow0.
  { intros i0. unfold cell2, after_pass1.
    rewrite aggregate_other_row by lia. reflexivity. }
  destruct (after_pass1 order s1) as [[e1|[]] s2] eqn:Hpass1;
    cbn [fst snd] in *.
  - exists e1, s2. split; [reflexivity|]. split.
    { rewrite Hw1, futures_after_2, length_app, !length_planned.
      reflexivity. }
    intros i0 Hi0.
    destruct (Has0 i0 (unit_future 0 i0)) as ((row & Hrow & x & Hx) & _);
      [apply planned_lookup; lia|].
    cbn [unit_future f_index] in Hx.
    assert (cell2 (energies s1) 0 i0 = Some (Some x)) as Hcell.
    { unfold cell2. rewrite Hrow. exact Hx. }
    destruct (proj1 (proj2 (Hvalues i0 x)) Hcell) as (d & hf_energy & Hunit).
    exists d, x, hf_energy. split; [exact Hunit|].
    rewrite Hrow0. exact Hcell.
  - exfalso.
    assert (Forall (fun kf => completed kf.2)
                   (as_completed (planned 0 ++ planned 1) (order 1)))
      as Hall.
    { eapply (aggregate_inr 1 _ (with_world (world_after 2) s1) tt).
      fold (after_pass1 order s1). rewrite Hpass1. reflexivity. }
    rewrite Forall_forall in Hall.
    apply (raised_not_completed _ _ Hout).
    apply (Hall (21 + i, unit_future 1 i)).
    apply as_completed_elem. split.
    + rewrite Hp1. apply elem_of_seq. lia.
    + pose proof (lookup_planned_both 1 i ltac:(lia) ltac:(lia)) as Hlook.
      exact Hlook.
Qed.

(** ** The configurations of the units among themselves *)

Lemma positioned_lookup w k f :
  w_futures w !! k = Some f -> (k, f) ∈ positioned w.
Proof.
  intros Hf. apply (list_elem_of_lookup_2 _ k). unfold positioned.
  rewrite lookup_zip_with.
  rewrite lookup_seq_lt by (eapply lookup_lt_Some, Hf).
  simpl. rewrite Hf. reflexivity.
Qed.

Lemma units_apart_after n :
  n = 1 \/ n = 2 ->
  units_apart (qiskit_chemistry_dict g0 :: algorithms g0) (world_after n).
Proof.
  intros Hn. rewrite world_after_eq.
  destruct Hn as [-> | ->]; apply (bool_decide_unpack _); vm_compute;
    exact I.
Qed.

(** What [units_apart] says of two futures. *)
Lemma units_apart_lookup vs w k k' f f' :
  units_apart vs w ->
  w_futures w !! k = Some f ->
  w_futures w !! k' = Some f' ->
  k <> k' ->
  exists l lp,
    f_config f = VRef l
    /\ entry (w_heap w) l "PYSCF" = Some (VRef lp)
    /\ Forall (fun v => (l ∉ reach (length (w_heap w)) (w_heap w) v)
                        /\ (lp ∉ reach (length (w_heap w)) (w_heap w) v))
              (f_config f' :: vs).
Proof.
  intros Hunits Hf Hf' Hne.
  pose proof (proj1 (Forall_forall _ _) Hunits (k, f)
                (positioned_lookup _ _ _ Hf)) as Hothers.
  pose proof (proj1 (Forall_forall _ _) Hothers (k', f')
                (positioned_lookup _ _ _ Hf') Hne) as Hapart.
  cbn [fst snd] in Hapart. unfold writes_apart in Hapart.
  destruct (f_config f) as [s|z|l]; [done|done|].
  destruct (entry (w_heap w) l "PYSCF") as [[s|z|lp]|] eqn:Hlp; try done.
  exists l, lp. split; [reflexivity|]. split; [exact Hlp|exact Hapart].
Qed.

(** X10: whatever the schedule and the solver, the configurations
    submitted for two different units are deep copies apart from each
    other: the two dictionaries the unit of work assigns to, the
    configuration it was given and the ['PYSCF'] dictionary of that
    configuration, are objects neither of the configuration of the other
    unit, nor of the shared configuration, nor of a dictionary of the
    algorithm table.  What one unit assigns, no other unit and no later
    deep copy can read. *)
Theorem units_assign_to_objects_of_their_own
    (order : nat -> list nat) (k k' : nat) (f f' : future) :
  let w' := st_world (notebook order empty_state).2 in
  let h := w_heap w' in
  w_futures w' !! k = Some f ->
  w_futures w' !! k' = Some f' ->
  k <> k' ->
  exists l lp,
    f_config f = VRef l
    /\ entry h l "PYSCF" = Some (VRef lp)
    /\ Forall (fun v => (l ∉ reach (length h) h v)
                        /\ (lp ∉ reach (length h) h v))
              (f_config f' :: qiskit_chemistry_dict g0 :: algorithms g0).
Proof.
  intros w' h. apply units_apart_lookup.
  destruct (notebook_world order) as [[_ Hw]|Hw]; unfold w';
    rewrite Hw; apply units_apart_after; [left|right]; reflexivity.
Qed.

(** ** What a deep copy reads *)

Lemma dict_set_fresh {A} (o : list (string * A)) k v :
  k ∉ o.*1 -> dict_set o k v = o ++ [(k, v)].
Proof.
  induction o as [|[k0 v0] o IH]; intros Hk; [reflexivity|]. simpl.
  rewrite fmap_cons, not_elem_of_cons in Hk. destruct Hk as [Hne Hk].
  simpl in Hne.
  destruct (String.eqb k0 k) eqn:E.
  - apply String.eqb_eq in E. congruence.
  - rewrite IH by exact Hk. reflexivity.
Qed.

Lemma flat_map_ext_elem {A B} (f g : A -> list B) (l : list A) :
  (forall a, In a l -> f a = g a) -> flat_map f l = flat_map g l.
Proof.
  induction l as [|a l IH]; intros H; [reflexivity|]. simpl.
  rewrite (H a) by (left; reflexivity).
  rewrite IH; [reflexivity|]. intros b Hb. apply H. right. exact Hb.
Qed.

(** The objects reachable from a value only depend on those objects. *)
Lemma reach_frame n h h' v :
  (forall x, x ∈ reach n h v -> h' !! x = h !! x) ->
  reach n h' v = reach n h v.
Proof.
  revert v. induction n as [|n IH]; intros v Hx.
  - destruct v; reflexivity.
  - destruct v as [| |l]; simpl in *; try reflexivity.
    rewrite Hx by left. destruct (h !! l) as [o|] eqn:Ho; [|reflexivity].
    f_equal. apply flat_map_ext_elem. intros kv Hkv.
    apply IH. intros x Hreach. apply Hx. right.
    apply list_elem_of_In, in_flat_map. exists kv. split; [done|].
    apply list_elem_of_In, Hreach.
Qed.

Lemma reach_nonref n h v x :
  (forall l, v <> VRef l) -> x ∈ reach n h v -> False.
Proof.
  intros Hv Hx. destruct v as [s|z|l]; [| |exact (Hv l eq_refl)];
    destruct n; simpl in Hx; apply elem_of_nil in Hx; exact Hx.
Qed.

(** Entries that are copies of one another read the same. *)
Lemma copy_of_map h0 y h o o' n :
  Forall2 (copy_of h0 y h) o o' ->
  map (fun kv => (kv.1, snap n h kv.2)) o'
  = map (fun kv => (kv.1, snap n h0 kv.2)) o.
Proof.
  induction 1 as [|kv kv' o o' (Hk & Hs & _) _ IH]; [reflexivity|].
  simpl. rewrite IH, Hs, Hk. reflexivity.
Qed.

Lemma copy_of_reach h0 y h o o' n x :
  Forall2 (copy_of h0 y h) o o' ->
  x ∈ flat_map (fun kv => reach n h kv.2) o' ->
  y < x < length h.
Proof.
  induction 1 as [|kv kv' o o' (_ & _ & Hr) _ IH]; simpl; intros Hx.
  - apply elem_of_nil in Hx. contradiction.
  - apply elem_of_app in Hx as [Hx|Hx]; [exact (Hr n x Hx)|exact (IH Hx)].
Qed.

Lemma copy_of_keys h0 y h o o' :
  Forall2 (copy_of h0 y h) o o' -> o'.*1 = o.*1.
Proof.
  induction 1 as [|kv kv' o o' (Hk & _) _ IH]; [reflexivity|].
  rewrite !fmap_cons, IH, Hk. reflexivity.
Qed.

(** A copy stays a copy when the heap changes elsewhere. *)
Lemma copy_of_frame h0 y h h' kv kv' :
  length h <= length h' ->
  (forall x, y < x < length h -> h' !! x = h !! x) ->
  copy_of h0 y h kv kv' -> copy_of h0 y h' kv kv'.
Proof.
  intros Hlen Hsame (Hk & Hs & Hr). split; [exact Hk|]. split.
  - intros n. rewrite <- Hs. apply snap_frame.
    intros x Hx. apply Hsame, (Hr n x Hx).
  - intros n x Hx. rewrite (reach_frame n h h') in Hx.
    + specialize (Hr n x Hx). lia.
    + intros z Hz. apply Hsame, (Hr n z Hz).
Qed.

(** A deep copy made in any heap that extends [h0] reads as the
    original reads in [h0], and is made of new objects only. *)
Lemma deepcopy_rec_reads h0 :
  closed h0 -> unique_keys h0 ->
  forall fuel v w v' w',
    preserved h0 (w_heap w) ->
    bounded_val (length h0) v ->
    deepcopy_rec fuel v w = (inr v', w') ->
    (forall n, snap n (w_heap w') v' = snap n h0 v)
    /\ (forall n x, x ∈ reach n (w_heap w') v' ->
          length (w_heap w) <= x < length (w_heap w')).
Proof.
  intros Hclosed Hunique.
  assert (forall (v : pyval) (w : pyworld) v' w',
            (forall l, v <> VRef l) ->
            preserved h0 (w_heap w) ->
            (mret v : M pyworld pyval) w = (inr v', w') ->
            (forall n, snap n (w_heap w') v' = snap n h0 v)
            /\ (forall n x, x ∈ reach n (w_heap w') v' ->
                  length (w_heap w) <= x < length (w_heap w'))) as Hret.
  { intros v w v' w' Hv Hpres [= <- <-]. split.
    - intros n. destruct v as [s|z|l]; [| |exfalso; exact (Hv l eq_refl)];
        destruct n; reflexivity.
    - intros n x Hx. exfalso. exact (reach_nonref _ _ _ _ Hv Hx). }
  induction fuel as [|fuel IH]; intros v w v' w' Hpres Hb Hrun.
  - destruct v as [s|z|l]; cbn [deepcopy_rec] in Hrun;
      [eapply Hret; [|exact Hpres|exact Hrun]; intros l [= ]..|].
    discriminate Hrun.
  - destruct v as [s|z|l]; cbn [deepcopy_rec] in Hrun;
      [eapply Hret; [|exact Hpres|exact Hrun]; intros l' [= ]..|].
    simpl in Hb.
    destruct (lookup_lt_is_Some_2 h0 l Hb) as [o Ho].
    assert (w_heap w !! l = Some o) as Hl.
    { rewrite (preserved_lookup _ _ _ Hpres) by exact Hb. exact Ho. }
    pose proof (preserved_length _ _ Hpres) as Hlen0.
    rewrite bind_run in Hrun. unfold dict_items in Hrun. rewrite Hl in Hrun.
    rewrite bind_run in Hrun. unfold new_dict in Hrun.
    set (y := length (w_heap w)) in *.
    set (w1 := set_heap (w_heap w ++ [[]]) w) in *.
    rewrite bind_run in Hrun.
    assert (NoDup o.*1) as Hnodup.
    { unfold unique_keys in Hunique. rewrite Forall_forall in Hunique.
      apply Hunique. eapply list_elem_of_lookup_2, Ho. }
    assert (Forall (fun kv => bounded_val (length h0) kv.2) o) as Hbounded.
    { unfold closed in Hclosed. rewrite Forall_forall in Hclosed.
      apply Hclosed. eapply list_elem_of_lookup_2, Ho. }
    assert (forall items done oy wa w'',
              o = done ++ items ->
              preserved h0 (w_heap wa) ->
              w_heap wa !! y = Some oy ->
              Forall2 (copy_of h0 y (w_heap wa)) done oy ->
              for_each items
                (fun kv => v' ← deepcopy_rec fuel kv.2;
                           setitem (VRef y) kv.1 v') wa = (inr tt, w'') ->
              exists oy',
                w_heap w'' !! y = Some oy'
                /\ Forall2 (copy_of h0 y (w_heap w'')) o oy') as Hloop.
    { clear Hrun w1 Hl. clearbody y.
      induction items as [|[k x] items IHitems];
        intros done oy wa w'' Ho' Hpa Hoy Hdone Hfor.
      { injection Hfor as <-. exists oy. split; [exact Hoy|].
        rewrite Ho', app_nil_r. exact Hdone. }
      cbn [for_each] in Hfor. rewrite !bind_run in Hfor.
      cbn [fst snd] in Hfor.
      destruct (deepcopy_rec fuel x wa) as [[e|x'] wb] eqn:Hcopy;
        [discriminate Hfor|].
      destruct (deepcopy_rec_spec _ _ _ _ _ Hcopy) as (Hpab & _).
      pose proof (preserved_length _ _ Hpab) as Hlenab.
      assert (y < length (w_heap wa)) as Hya by (eapply lookup_lt_Some, Hoy).
      assert (bounded_val (length h0) x) as Hbx.
      { rewrite Forall_forall in Hbounded.
        apply (Hbounded (k, x)). rewrite Ho'. apply elem_of_app. right. left. }
      destruct (IH x wa x' wb Hpa Hbx Hcopy) as (Hsnap & Hreach).
      assert (w_heap wb !! y = Some oy) as Hoyb.
      { rewrite (preserved_lookup _ _ _ Hpab) by exact Hya. exact Hoy. }
      unfold setitem at 1 in Hfor. rewrite Hoyb in Hfor.
      assert (k ∉ oy.*1) as Hfresh.
      { rewrite (copy_of_keys _ _ _ _ _ Hdone).
        rewrite Ho', fmap_app, fmap_cons in Hnodup.
        apply NoDup_app in Hnodup as (_ & Hdisj & _).
        intros Hin. apply (Hdisj _ Hin). left. }
      rewrite (dict_set_fresh oy k x' Hfresh) in Hfor.
      set (hc := <[y := oy ++ [(k, x')]]> (w_heap wb)) in *.
      assert (forall z, z <> y -> hc !! z = w_heap wb !! z) as Hc.
      { intros z Hz. unfold hc. apply list_lookup_insert_ne. done. }
      assert (length hc = length (w_heap wb)) as Hlenc
        by apply length_insert.
      apply (IHitems (done ++ [(k, x)]) (oy ++ [(k, x')])
               (set_heap hc wb) w'').
      - rewrite Ho', <- app_assoc. reflexivity.
      - cbn [set_heap w_heap]. apply preserved_insert.
        + eapply preserved_trans; eauto.
        + pose proof (preserved_length _ _ Hpa). lia.
      - cbn [set_heap w_heap]. unfold hc.
        apply list_lookup_insert_eq. lia.
      - cbn [set_heap w_heap]. apply Forall2_app.
        + eapply Forall2_impl; [exact Hdone|].
          intros kv kv'. apply copy_of_frame; [lia|].
          intros z Hz. rewrite Hc by lia.
          apply (preserved_lookup _ _ _ Hpab). lia.
        + constructor; [|constructor].
          split; [reflexivity|]. cbn [fst snd]. split.
          * intros n. rewrite <- Hsnap. apply snap_frame.
            intros z Hz. apply Hc. specialize (Hreach n z Hz). lia.
          * intros n z Hz. rewrite (reach_frame n (w_heap wb) hc) in Hz.
            -- specialize (Hreach n z Hz). lia.
            -- intros z' Hz'. apply Hc. specialize (Hreach n z' Hz'). lia.
      - exact Hfor. }
    destruct (for_each o _ w1) as [[e|[]] w2] eqn:Hfor;
      [discriminate Hrun|].
    injection Hrun as <- <-.
    destruct (Hloop o [] [] w1 w2) as (oy' & Hoy' & Hcopies).
    { reflexivity. }
    { unfold w1. cbn [set_heap w_heap]. unfold preserved.
      rewrite take_app_le by lia. exact Hpres. }
    { unfold w1, y. cbn [set_heap w_heap]. rewrite lookup_app_r by lia.
      rewrite Nat.sub_diag. reflexivity. }
    { constructor. }
    { exact Hfor. }
    split.
    + intros [|n]; [reflexivity|]. cbn [snap]. rewrite Hoy', Ho.
      f_equal. eapply copy_of_map, Hcopies.
    + intros n x Hx. pose proof (lookup_lt_Some _ _ _ Hoy') as Hy.
      destruct n as [|n]; cbn [reach] in Hx;
        apply elem_of_cons in Hx as [->|Hx];
        [lia|apply elem_of_nil in Hx; contradiction|lia|].
      rewrite Hoy' in Hx.
      pose proof (copy_of_reach _ _ _ _ _ _ _ Hcopies Hx). lia.
Qed.

(** A nest of dictionaries reads the same at every depth beyond its
    own. *)
Lemma snap_nested n h v :
  nested n h v = true -> forall m, n <= m -> snap m h v = snap n h v.
Proof.
  revert v. induction n as [|n IH]; intros v Hn m Hm.
  - destruct v as [s|z|l]; [destruct m; reflexivity..|discriminate Hn].
  - destruct v as [s|z|l]; [destruct m; reflexivity..|].
    destruct m as [|m]; [lia|]. cbn [nested] in Hn. cbn [snap].
    destruct (h !! l) as [o|]; [|reflexivity].
    f_equal. apply map_ext_in. intros kv Hkv. f_equal.
    apply IH; [|lia].
    rewrite forallb_forall in Hn. exact (Hn kv Hkv).
Qed.

(** The deep copy of a nest of dictionaries no deeper than the fuel
    returns, in any heap that extends [h0]. *)
Lemma deepcopy_rec_returns h0 fuel :
  forall v w,
    nested fuel h0 v = true ->
    preserved h0 (w_heap w) ->
    exists v' w', deepcopy_rec fuel v w = (inr v', w').
Proof.
  induction fuel as [|fuel IH]; intros v w Hn Hpres.
  - destruct v as [s|z|l]; [eexists _, _; reflexivity..|discriminate Hn].
  - destruct v as [s|z|l]; [eexists _, _; reflexivity..|].
    cbn [nested] in Hn.
    destruct (h0 !! l) as [o|] eqn:Ho; [|discriminate Hn].
    assert (w_heap w !! l = Some o) as Hl.
    { rewrite (preserved_lookup _ _ _ Hpres)
        by (eapply lookup_lt_Some, Ho).
      exact Ho. }
    pose proof (preserved_length _ _ Hpres) as Hlen0.
    cbn [deepcopy_rec]. rewrite bind_run. unfold dict_items. rewrite Hl.
    rewrite bind_run. unfold new_dict.
    set (y := length (w_heap w)).
    set (w1 := set_heap (w_heap w ++ [[]]) w).
    rewrite bind_run.
    assert (length h0 <= y) as Hy0 by exact Hlen0.
    assert (forall items wa,
              forallb (fun kv => nested fuel h0 kv.2) items = true ->
              preserved h0 (w_heap wa) ->
              y < length (w_heap wa) ->
              exists w'',
                for_each items
                  (fun kv => v' ← deepcopy_rec fuel kv.2;
                             setitem (VRef y) kv.1 v') wa
                = (inr tt, w'')) as Hloop.
    { clearbody y. clear w1 Hl Hn.
      induction items as [|[k x] items IHitems]; intros wa Hitems Hpa Hya.
      { eexists. reflexivity. }
      cbn [forallb] in Hitems. apply andb_prop in Hitems as [Hx Hitems].
      cbn [snd] in Hx.
      destruct (IH x wa Hx Hpa) as (x' & wb & Hcopy).
      destruct (deepcopy_rec_spec _ _ _ _ _ Hcopy) as (Hpab & _).
      pose proof (preserved_length _ _ Hpab) as Hlenab.
      destruct (lookup_lt_is_Some_2 (w_heap wb) y ltac:(lia)) as [oy Hoy].
      cbn [for_each]. rewrite !bind_run. cbn [fst snd]. rewrite Hcopy.
      unfold setitem at 1. rewrite Hoy.
      apply IHitems; [exact Hitems| |].
      - cbn [set_heap w_heap]. apply preserved_insert; [|lia].
        eapply preserved_trans; eauto.
      - cbn [set_heap w_heap]. rewrite length_insert. lia. }
    destruct (Hloop o w1 Hn) as (w'' & Hfor).
    { unfold w1. cbn [set_heap w_heap]. unfold preserved.
      rewrite take_app_le by lia. exact Hpres. }
    { unfold w1, y. cbn [set_heap w_heap]. rewrite length_app. simpl. lia. }
    rewrite Hfor. eexists _, _. reflexivity.
Qed.

(** The objects of cell 1 after any number of passes. *)
Lemma cell1_objects_after n :
  n <= 2 -> preserved heap0 (w_heap (world_after n)).
Proof.
  intros Hn. rewrite world_after_eq. unfold preserved.
  destruct n as [|[|[|n]]]; [| | |lia]; vm_compute; reflexivity.
Qed.

(** X11: whatever the schedule and the solver, the sweep leaves the
    eight dictionaries of cell 1 as cell 1 built them; and in every
    world in which they are so, [copy.deepcopy(qiskit_chemistry_dict)]
    returns: the copy reads, to every depth, exactly as the shared
    configuration of cell 1, it is made of new objects only, and every
    object that was there is left as it was. *)
Theorem configuration_copy_reads_as_shared :
  (forall order,
     preserved heap0 (w_heap (st_world (notebook order empty_state).2)))
  /\ (forall w : pyworld,
        preserved heap0 (w_heap w) ->
        exists c w',
          deepcopy (qiskit_chemistry_dict g0) w = (inr c, w')
          /\ (forall n, snap n (w_heap w') c
                        = snap n heap0 (qiskit_chemistry_dict g0))
          /\ view (w_heap w') c = assembled
          /\ (forall n x, x ∈ reach n (w_heap w') c ->
                length (w_heap w) <= x < length (w_heap w'))
          /\ preserved (w_heap w) (w_heap w')).
Proof.
  split.
  { intros order.
    destruct (notebook_world order) as [[_ Hw]|Hw]; rewrite Hw;
      apply cell1_objects_after; lia. }
  intros w Hpres.
  assert (closed heap0) as Hclosed.
  { unfold closed. apply (bool_decide_unpack _). vm_compute. exact I. }
  assert (unique_keys heap0) as Hunique.
  { unfold unique_keys. apply (bool_decide_unpack _). vm_compute. exact I. }
  assert (nested recursion_limit heap0 (qiskit_chemistry_dict g0) = true)
    as Hnested by (vm_compute; reflexivity).
  destruct (deepcopy_rec_returns heap0 recursion_limit _ w Hnested Hpres)
    as (c & w' & Hrun).
  destruct (deepcopy_rec_reads heap0 Hclosed Hunique recursion_limit
              (qiskit_chemistry_dict g0) w c w' Hpres) as (Hsnap & Hreach);
    [simpl; lia|exact Hrun|].
  destruct (deepcopy_rec_spec _ _ _ _ _ Hrun) as (Hpres' & _).
  exists c, w'. split; [exact Hrun|]. split; [exact Hsnap|].
  split; [|split; [exact Hreach|exact Hpres']].
  unfold assembled, view. rewrite Hsnap.
  pose proof (preserved_length _ _ Hpres) as Hlen.
  pose proof (preserved_length _ _ Hpres') as Hlen'.
  assert (nested 3 heap0 (qiskit_chemistry_dict g0) = true) as H3
    by reflexivity.
  rewrite (snap_nested 3 heap0 _ H3 (length (w_heap w')))
    by (change (length heap0) with 8 in Hlen; lia).
  rewrite (snap_nested 3 heap0 _ H3 (length heap0))
    by (change (length heap0) with 8; lia).
  reflexivity.
Qed.

End Script.

(** * The theorems at concrete inputs *)

Lemma valid_exact_first : valid_order exact_first.
Proof.
  split; [reflexivity|]. apply (bool_decide_unpack _). vm_compute. exact I.
Qed.

Lemma demo_completed :
  Forall completed (w_futures (world_after demo_float_str demo_solver 2)).
Proof.
  vm_compute. repeat (constructor; [eexists; reflexivity|]). constructor.
Qed.

Lemma C2_subrountine_unit_of_work_witness :
  entry (w_heap first_unit_world) 8 "PYSCF" = Some (VRef 10)
  /\ 10 < length (w_heap first_unit_world)
  /\ (subrountine demo_float_str demo_solver 0 (VRef 8) (distance 0)
                  QasmSimulator (VRef 6) first_unit_world).1
     = inr (0, distance 0, (-1)%Q, (-0.5)%Q).
Proof.
  assert (entry (w_heap first_unit_world) 8 "PYSCF" = Some (VRef 10)) as H1
    by reflexivity.
  assert (10 < length (w_heap first_unit_world)) as H2 by (vm_compute; lia).
  split; [exact H1|]. split; [exact H2|].
  destruct (C2_subrountine_unit_of_work demo_float_str demo_solver
              0 8 10 (distance 0) QasmSimulator (VRef 6) first_unit_world
              H1 H2)
    as (_ & _ & _ & _ & _ & _ & Hret).
  eapply Hret; reflexivity.
Defined.

Lemma C3_sweep_submits_42_units_witness :
  let st' := (notebook demo_float_str demo_solver in_order empty_state).2 in
  notebook demo_float_str demo_solver in_order empty_state = (inr tt, st')
  /\ 1 < 2 /\ 20 <= 20
  /\ length (w_futures (st_world st')) = 42.
Proof.
  cbv zeta.
  assert (notebook demo_float_str demo_solver in_order empty_state
          = (inr tt,
             (notebook demo_float_str demo_solver in_order empty_state).2))
    as H by (vm_compute; reflexivity).
  assert (1 < 2) as Hj by lia. assert (20 <= 20) as Hi by lia.
  split; [exact H|]. split; [exact Hj|]. split; [exact Hi|].
  exact (proj1 (C3_sweep_submits_42_units demo_float_str demo_solver
                  in_order _ 1 20 H Hj Hi)).
Defined.

Lemma C6_exception_leaves_the_loop_witness :
  valid_order in_order /\ 1 < 2 /\ 0 <= 20
  /\ failing_solver (21 * 1 + 0) (unit_tree demo_float_str 1 0) (backend_of 1)
     = inl (SolverError "no convergence")
  /\ exists e' st',
       notebook demo_float_str failing_solver in_order empty_state
       = (inl e', st')
       /\ forall j', (j', 21) ∉ st_consumed st'.
Proof.
  assert (valid_order in_order) as Hv by (split; reflexivity).
  assert (1 < 2) as Hj by lia. assert (0 <= 20) as Hi by lia.
  assert (failing_solver (21 * 1 + 0) (unit_tree demo_float_str 1 0)
            (backend_of 1)
          = inl (SolverError "no convergence")) as Hs by reflexivity.
  split; [exact Hv|]. split; [exact Hj|]. split; [exact Hi|].
  split; [exact Hs|].
  destruct (C6_exception_leaves_the_loop demo_float_str failing_solver
              in_order 1 0 _ Hv Hj Hi Hs)
    as (f & _ & _ & _ & _ & e' & st' & Hrun & _ & Hnot).
  exists e', st'. split; [exact Hrun|exact Hnot].
Defined.

Lemma C8_distances_of_the_sweep_witness :
  20 <= 20
  /\ (distance 20 == 0.5 + inject_Z (Z.of_nat 20) * 0.025)%Q.
Proof.
  assert (20 <= 20) as H by lia. split; [exact H|].
  exact (proj1 (proj2 (C8_distances_of_the_sweep demo_float_str demo_solver
                         20 H))).
Defined.

Lemma C9_every_cell_assigned_witness :
  valid_order in_order
  /\ Forall completed (w_futures (world_after demo_float_str demo_solver 2))
  /\ exists st',
       notebook demo_float_str demo_solver in_order empty_state
       = (inr tt, st')
       /\ assigned2 (energies st') 1 20.
Proof.
  assert (valid_order in_order) as Hv by (split; reflexivity).
  assert (Forall completed
            (w_futures (world_after demo_float_str demo_solver 2))) as Hc.
  { vm_compute. repeat (constructor; [eexists; reflexivity|]). constructor. }
  split; [exact Hv|]. split; [exact Hc|].
  destruct (C9_every_cell_assigned demo_float_str demo_solver in_order Hv Hc)
    as (st' & Hrun & _ & _ & _ & _ & Hassigned).
  exists st'. split; [exact Hrun|]. apply (Hassigned 20). lia.
Defined.

Lemma C10_subrountine_changes_two_entries_witness :
  let h := w_heap first_unit_world in
  entry h 8 "PYSCF" = Some (VRef 10)
  /\ 10 < length h
  /\ Forall (fun k => apart h (entry h 8 k) 8 10)
            ["driver"; "operator"; "initial_state"]
  /\ apart h (entry h 10 "basis") 8 10
  /\ entry (w_heap (subrountine demo_float_str demo_solver 0 (VRef 8)
                      (distance 0) QasmSimulator (VRef 6)
                      first_unit_world).2)
           10 "basis"
     = entry h 10 "basis".
Proof.
  cbv zeta.
  assert (entry (w_heap first_unit_world) 8 "PYSCF" = Some (VRef 10)) as H1
    by reflexivity.
  assert (10 < length (w_heap first_unit_world)) as H2 by (vm_compute; lia).
  assert (Forall (fun k => apart (w_heap first_unit_world)
                             (entry (w_heap first_unit_world) 8 k) 8 10)
                 ["driver"; "operator"; "initial_state"]) as H3.
  { apply (bool_decide_unpack _). vm_compute. exact I. }
  assert (apart (w_heap first_unit_world)
                (entry (w_heap first_unit_world) 10 "basis") 8 10) as H4.
  { apply (bool_decide_unpack _). vm_compute. exact I. }
  split; [exact H1|]. split; [exact H2|]. split; [exact H3|].
  split; [exact H4|].
  destruct (C10_subrountine_changes_two_entries demo_float_str demo_solver
              0 8 10 (distance 0) QasmSimulator (VRef 6) first_unit_world
              H1 H2 H3 H4)
    as (_ & _ & Hentries & _).
  apply Hentries; intros [= ].
Defined.

(** The run behind C1: in the second pass the exact result of step 0 is
    yielded before the IQPE result of step 0.  The IQPE future of step 0
    is consumed in both passes, and row 1 ends with the IQPE energy of
    step 0 where the exact energy belongs. *)
Lemma C1_first_algorithm_consumed_in_both_passes_witness :
  let run := notebook demo_float_str demo_solver exact_first empty_state in
  valid_order exact_first
  /\ Forall completed (w_futures (world_after demo_float_str demo_solver 2))
  /\ 0 < 21
  /\ run.1 = inr tt
  /\ (0, 0) ∈ st_consumed run.2
  /\ (1, 0) ∈ st_consumed run.2
  /\ f_outcome <$> w_futures (st_world run.2) !! 0
     = Some (inr (0, distance 0, (-1)%Q, (-0.5)%Q))
  /\ f_outcome <$> w_futures (st_world run.2) !! 21
     = Some (inr (0, distance 0, (-1.1)%Q, (-0.5)%Q))
  /\ cell2 (energies run.2) 1 0 = Some (Some (-1)%Q).
Proof.
  cbv zeta.
  assert (0 < 21) as Hk by lia.
  split; [exact valid_exact_first|]. split; [exact demo_completed|].
  split; [exact Hk|].
  destruct (C1_first_algorithm_consumed_in_both_passes demo_float_str
              demo_solver exact_first 0 valid_exact_first demo_completed Hk)
    as (st' & Hrun & _ & Hc0 & Hc1 & Hlast).
  rewrite Hrun. cbn [fst snd].
  split; [reflexivity|]. split; [exact Hc0|]. split; [exact Hc1|].
  split; [|split].
  - assert (st' = (notebook demo_float_str demo_solver exact_first
                     empty_state).2) as -> by (rewrite Hrun; reflexivity).
    vm_compute. reflexivity.
  - assert (st' = (notebook demo_float_str demo_solver exact_first
                     empty_state).2) as -> by (rewrite Hrun; reflexivity).
    vm_compute. reflexivity.
  - apply (Hlast [21] (seq 1 20 ++ seq 22 20) (distance 0) (-1)%Q (-0.5)%Q).
    + reflexivity.
    + left.
    + reflexivity.
Defined.

(** ** The further properties at concrete inputs *)

Lemma subrountine_rejects_configuration_witness :
  w_heap w0 !! 0 = Some [("name", VStr "PYSCF")]
  /\ subrountine demo_float_str demo_solver 0 (VRef 0) (distance 0)
                 QasmSimulator (VRef 6) w0
     = (inl (KeyError "PYSCF"), w0).
Proof.
  assert (w_heap w0 !! 0 = Some [("name", VStr "PYSCF")]) as H
    by reflexivity.
  split; [exact H|].
  apply (proj1 (subrountine_rejects_configuration demo_float_str demo_solver
                  0 0 _ (distance 0) QasmSimulator (VRef 6) w0 H)).
  reflexivity.
Defined.

Lemma subrountine_raises_after_the_call_witness :
  entry (w_heap first_unit_world) 8 "PYSCF" = Some (VRef 10)
  /\ 10 < length (w_heap first_unit_world)
  /\ (subrountine demo_float_str failing_solver 0 (VRef 8) (distance 0)
                  NoBackend (VRef 7) first_unit_world).1
     = inl (SolverError "no convergence").
Proof.
  assert (entry (w_heap first_unit_world) 8 "PYSCF" = Some (VRef 10)) as H1
    by reflexivity.
  assert (10 < length (w_heap first_unit_world)) as H2 by (vm_compute; lia).
  split; [exact H1|]. split; [exact H2|].
  apply (proj1 (subrountine_raises_after_the_call demo_float_str
                  failing_solver 0 8 10 (distance 0) NoBackend (VRef 7)
                  first_unit_world H1 H2)).
  reflexivity.
Defined.

Lemma subrountine_overwrites_previous_unit_witness :
  entry (w_heap first_unit_world) 8 "PYSCF" = Some (VRef 10)
  /\ 10 < length (w_heap first_unit_world)
  /\ w_heap (subrountine demo_float_str demo_solver 1 (VRef 8) (distance 1)
                NoBackend (VRef 7)
                (subrountine demo_float_str demo_solver 0 (VRef 8)
                   (distance 0) QasmSimulator (VRef 6)
                   first_unit_world).2).2
     = w_heap (subrountine demo_float_str demo_solver 1 (VRef 8) (distance 1)
                 NoBackend (VRef 7) first_unit_world).2.
Proof.
  assert (entry (w_heap first_unit_world) 8 "PYSCF" = Some (VRef 10)) as H1
    by reflexivity.
  assert (10 < length (w_heap first_unit_world)) as H2 by (vm_compute; lia).
  split; [exact H1|]. split; [exact H2|].
  exact (proj1 (subrountine_overwrites_previous_unit demo_float_str
                  demo_solver 0 1 8 10 (distance 0) (distance 1)
                  QasmSimulator NoBackend (VRef 6) (VRef 7)
                  first_unit_world H1 H2)).
Defined.

Lemma difference_plot_needs_two_rows_witness :
  length (energies empty_state) < 2
  /\ cell5 empty_state empty_figure = (inl IndexError, empty_figure).
Proof.
  assert (length (energies empty_state) < 2) as H by (simpl; lia).
  split; [exact H|].
  exact (proj1 (difference_plot_needs_two_rows empty_state empty_figure) H).
Defined.

(** The run behind C1 once more: row 1 holds, at step 0, an energy that a
    unit of step 0 returned, here the one of the first algorithm. *)
Lemma assigned_cells_hold_returned_values_witness :
  let st' := (notebook demo_float_str demo_solver exact_first empty_state).2 in
  cell2 (energies st') 1 0 = Some (Some (-1)%Q)
  /\ exists j d hf_energy,
       j < 2
       /\ f_outcome (unit_future demo_float_str demo_solver j 0)
          = inr (0, d, (-1)%Q, hf_energy).
Proof.
  cbv zeta.
  assert (cell2 (energies (notebook demo_float_str demo_solver exact_first
                             empty_state).2) 1 0
          = Some (Some (-1)%Q)) as H by (vm_compute; reflexivity).
  split; [exact H|].
  exact (proj1 (proj2 (proj2 (assigned_cells_hold_returned_values
                                demo_float_str demo_solver exact_first
                                0 (-1)%Q))) H).
Defined.

Lemma completed_sweep_distances_and_first_row_witness :
  valid_order exact_first
  /\ Forall completed (w_futures (world_after demo_float_str demo_solver 2))
  /\ exists st',
       notebook demo_float_str demo_solver exact_first empty_state
       = (inr tt, st')
       /\ distances st' = (fun i => Some (distance i)) <$> seq 0 21.
Proof.
  split; [exact valid_exact_first|]. split; [exact demo_completed|].
  destruct (completed_sweep_distances_and_first_row demo_float_str
              demo_solver exact_first valid_exact_first demo_completed)
    as (st' & Hrun & Hd & _).
  exists st'. split; [exact Hrun|exact Hd].
Defined.

Lemma second_row_when_second_algorithm_is_last_witness :
  valid_order in_order
  /\ Forall completed (w_futures (world_after demo_float_str demo_solver 2))
  /\ 0 <= 20
  /\ in_order 1 = seq 0 21 ++ (21 + 0) :: seq 22 20
  /\ 0 ∈ seq 0 21
  /\ exists st',
       notebook demo_float_str demo_solver in_order empty_state
       = (inr tt, st')
       /\ cell2 (energies st') 1 0 = Some (Some (-1.1)%Q).
Proof.
  assert (valid_order in_order) as Hv by (split; reflexivity).
  assert (0 <= 20) as Hi by lia.
  assert (in_order 1 = seq 0 21 ++ (21 + 0) :: seq 22 20) as Ho
    by reflexivity.
  assert (0 ∈ seq 0 21) as Hin by left.
  split; [exact Hv|]. split; [exact demo_completed|]. split; [exact Hi|].
  split; [exact Ho|]. split; [exact Hin|].
  destruct (second_row_when_second_algorithm_is_last demo_float_str
              demo_solver in_order 0 _ _ Hv demo_completed Hi Ho Hin)
    as (st' & d & energy & hf_energy & Hrun & Hout & Hcell).
  exists st'. split; [exact Hrun|].
  rewrite Hcell. vm_compute in Hout. injection Hout as _ <- _.
  reflexivity.
Defined.

Lemma failure_in_first_pass_ends_sweep_witness :
  valid_order in_order
  /\ 3 <= 20
  /\ unstable_solver 3 (unit_tree demo_float_str 0 3) QasmSimulator
     = inl (SolverError "simulator failed")
  /\ exists e' st',
       notebook demo_float_str unstable_solver in_order empty_state
       = (inl e', st')
       /\ length (w_calls (st_world st')) = 21
       /\ energies st' !! 1 = Some (np_empty 21).
Proof.
  assert (valid_order in_order) as Hv by (split; reflexivity).
  assert (3 <= 20) as Hi by lia.
  assert (unstable_solver 3 (unit_tree demo_float_str 0 3) QasmSimulator
          = inl (SolverError "simulator failed")) as Hs by reflexivity.
  split; [exact Hv|]. split; [exact Hi|]. split; [exact Hs|].
  destruct (failure_in_first_pass_ends_sweep demo_float_str unstable_solver
              in_order 3 _ Hv Hi Hs)
    as (e' & st' & Hrun & _ & _ & Hlen & _ & Hrow & _).
  exists e', st'. split; [exact Hrun|]. split; [exact Hlen|exact Hrow].
Defined.

Lemma units_assign_to_objects_of_their_own_witness :
  let w' := st_world (notebook demo_float_str demo_solver in_order
                        empty_state).2 in
  w_futures w' !! 0 = Some (unit_future demo_float_str demo_solver 0 0)
  /\ w_futures w' !! 1 = Some (unit_future demo_float_str demo_solver 0 1)
  /\ 0 <> 1
  /\ exists l lp,
       unit_config 0 0 = VRef l
       /\ entry (w_heap w') l "PYSCF" = Some (VRef lp)
       /\ (l ∉ reach (length (w_heap w')) (w_heap w') (unit_config 0 1))
       /\ (lp ∉ reach (length (w_heap w')) (w_heap w') (unit_config 0 1)).
Proof.
  cbv zeta.
  assert (w_futures (st_world (notebook demo_float_str demo_solver in_order
                                 empty_state).2) !! 0
          = Some (unit_future demo_float_str demo_solver 0 0)) as H0
    by (vm_compute; reflexivity).
  assert (w_futures (st_world (notebook demo_float_str demo_solver in_order
                                 empty_state).2) !! 1
          = Some (unit_future demo_float_str demo_solver 0 1)) as H1
    by (vm_compute; reflexivity).
  assert (0 <> 1) as Hne by lia.
  split; [exact H0|]. split; [exact H1|]. split; [exact Hne|].
  destruct (units_assign_to_objects_of_their_own demo_float_str demo_solver
              in_order 0 1 _ _ H0 H1 Hne)
    as (l & lp & Hl & Hlp & Hapart).
  exists l, lp. split; [exact Hl|]. split; [exact Hlp|].
  apply Forall_cons in Hapart as [Hfirst _]. exact Hfirst.
Defined.

Lemma configuration_copy_reads_as_shared_witness :
  preserved heap0 (w_heap (world_after demo_float_str demo_solver 2))
  /\ exists c w',
       deepcopy (qiskit_chemistry_dict g0)
                (world_after demo_float_str demo_solver 2)
       = (inr c, w')
       /\ view (w_heap w') c = assembled.
Proof.
  assert (preserved heap0 (w_heap (world_after demo_float_str demo_solver 2)))
    as H by (vm_compute; reflexivity).
  split; [exact H|].
  destruct (proj2 (configuration_copy_reads_as_shared demo_float_str
                     demo_solver) _ H)
    as (c & w' & Hrun & _ & Hview & _).
  exists c, w'. split; [exact Hrun|exact Hview].
Defined.

Lemma failure_in_second_pass_keeps_first_row_witness :
  valid_order in_order
  /\ Forall completed (planned demo_float_str failing_solver 0)
  /\ 0 <= 20
  /\ failing_solver (21 + 0) (unit_tree demo_float_str 1 0) NoBackend
     = inl (SolverError "no convergence")
  /\ exists e' st',
       notebook demo_float_str failing_solver in_order empty_state
       = (inl e', st')
       /\ cell2 (energies st') 0 20 = Some (Some (-1)%Q).
Proof.
  assert (valid_order in_order) as Hv by (split; reflexivity).
  assert (Forall completed (planned demo_float_str failing_solver 0)) as Hc.
  { vm_compute. repeat (constructor; [eexists; reflexivity|]). constructor. }
  assert (0 <= 20) as Hi by lia.
  assert (failing_solver (21 + 0) (unit_tree demo_float_str 1 0) NoBackend
          = inl (SolverError "no convergence")) as Hs by reflexivity.
  split; [exact Hv|]. split; [exact Hc|]. split; [exact Hi|].
  split; [exact Hs|].
  destruct (failure_in_second_pass_keeps_first_row demo_float_str
              failing_solver in_order 0 _ Hv Hc Hi Hs)
    as (e' & st' & Hrun & _ & Hrow).
  exists e', st'. split; [exact Hrun|].
  destruct (Hrow 20 ltac:(lia)) as (d & energy & hf_energy & Hout & Hcell).
  rewrite Hcell. vm_compute in Hout. injection Hout as _ <- _.
  reflexivity.
Defined.

(** The run behind C1 and C7: the exact result of step 0 is yielded
    before the IQPE result of step 0.  The unit of the ExactEigensolver
    returned -1.1 for step 0, the unit of IQPE -1; the curve labelled IQPE
    is -1 - -1 at step 0, not -1 - -1.1. *)
Lemma C7_difference_plot_after_sweep_witness :
  valid_order exact_first
  /\ Forall completed (w_futures (world_after demo_float_str demo_solver 2))
  /\ 0 < 21
  /\ exact_first 1 = [21] ++ 0 :: (seq 1 20 ++ seq 22 20)
  /\ 21 + 0 ∈ [21]
  /\ f_outcome (unit_future demo_float_str demo_solver 0 0)
     = inr (0, distance 0, (-1)%Q, (-0.5)%Q)
  /\ f_outcome (unit_future demo_float_str demo_solver 1 0)
     = inr (0, distance 0, (-1.1)%Q, (-0.5)%Q)
  /\ (exists st' e0 e1 fig,
        notebook demo_float_str demo_solver exact_first empty_state
        = (inr tt, st')
        /\ energies st' = [e0; e1]
        /\ cell5 st' empty_figure = (inr tt, fig)
        /\ fig_curves fig !! 1
           = Some (Curve (distances st') (np_subtract e0 e1) "IQPE")
        /\ np_subtract e0 e1 !! 0 = Some (Some (-1 - -1)%Q))
  /\ ~ (-1 - -1 == -1 - -1.1)%Q.
Proof.
  assert (0 < 21) as Hk by lia.
  assert (exact_first 1 = [21] ++ 0 :: (seq 1 20 ++ seq 22 20)) as Ho
    by reflexivity.
  assert (21 + 0 ∈ [21]) as Hin by left.
  assert (f_outcome (unit_future demo_float_str demo_solver 0 0)
          = inr (0, distance 0, (-1)%Q, (-0.5)%Q)) as H0 by reflexivity.
  split; [exact valid_exact_first|]. split; [exact demo_completed|].
  split; [exact Hk|]. split; [exact Ho|]. split; [exact Hin|].
  split; [exact H0|]. split; [reflexivity|]. split.
  - destruct (C7_difference_plot_after_sweep demo_float_str demo_solver
                exact_first 0 _ _ _ _ _ valid_exact_first demo_completed
                Hk Ho Hin H0)
      as (st' & e0 & e1 & fig & Hrun & Hen & Hfig & Hcurves & _ & _ & _
          & Hdiff & _).
    exists st', e0, e1, fig. split; [exact Hrun|]. split; [exact Hen|].
    split; [exact Hfig|]. split; [rewrite Hcurves; reflexivity|exact Hdiff].
  - intros H. vm_compute in H. discriminate H.
Defined.
